(** * SHA-1 streaming context of bcrypto ([lib/js/sha1.js])

    A shallow embedding of the JavaScript implementation and of the
    statements its specification makes about it.

    Conventions of the embedding.
    - A JavaScript number is modelled by the integer it holds.  Every
      number this file manipulates is integer valued; the two places where
      the source forms a fraction ([i / 20] and [len * (1 / 0x100000000)])
      feed it straight into a 32-bit coercion, which truncates towards
      zero, so the fraction is modelled by [Z.quot].
    - Sums and products of data (state words, schedule words, the byte
      counter) are modelled with the rounding of a double ([JS.add],
      [JS.mul]); they are shown to be exact where the claims need it.
      Offsets into buffers and loop counters are bounded by the length of
      a buffer and are computed in [Z].
    - A [Buffer] is a [list byte]; reading past its end gives [undefined],
      which every consumer in this file coerces to [0]; writing stores the
      value modulo 256.
    - Objects are threaded explicitly: a method takes the context (and the
      module-level scratch buffer [DESC] when it uses it) and returns the
      updated one. *)

From Stdlib Require Import ZArith ZifyNat Lia List Bool String.
From stdpp Require Import base list.
From coqutil Require Import Byte Z.bitblast.
From Equations Require Import Equations.

Local Open Scope Z_scope.

#[global] Instance byte_inhabited : Inhabited byte := populate Byte.x00.

(** ** JavaScript numbers and 32-bit operators *)

Module JS.

Definition ToUint32 (x : Z) : Z := x mod 2 ^ 32.

Definition ToInt32 (x : Z) : Z := (x + 2 ^ 31) mod 2 ^ 32 - 2 ^ 31.

(** [x << n] *)
Definition shl (x n : Z) : Z :=
  ToInt32 (Z.shiftl (ToInt32 x) (Z.land (ToUint32 n) 31)).

(** [x >> n] *)
Definition sar (x n : Z) : Z :=
  Z.shiftr (ToInt32 x) (Z.land (ToUint32 n) 31).

(** [x >>> n] *)
Definition shr (x n : Z) : Z :=
  Z.shiftr (ToUint32 x) (Z.land (ToUint32 n) 31).

(** [x | y], [x & y], [x ^ y], [~x]: both operands are coerced and the
    result is a signed 32-bit integer. *)
Definition bor (x y : Z) : Z := ToInt32 (Z.lor (ToInt32 x) (ToInt32 y)).
Definition band (x y : Z) : Z := ToInt32 (Z.land (ToInt32 x) (ToInt32 y)).
Definition bxor (x y : Z) : Z := ToInt32 (Z.lxor (ToInt32 x) (ToInt32 y)).
Definition bnot (x : Z) : Z := ToInt32 (Z.lnot (ToInt32 x)).

(** The integer a double holds after rounding [z] to 53 significant bits
    (round to nearest, ties to even). *)
Definition round53 (z : Z) : Z :=
  if Z.abs z <=? 2 ^ 53 then z
  else
    let ulp := 2 ^ (Z.log2 (Z.abs z) - 52) in
    let q := Z.abs z / ulp in
    let r := Z.abs z mod ulp in
    let q' := if (2 * r <? ulp) || ((2 * r =? ulp) && Z.even q) then q else q + 1 in
    Z.sgn z * (q' * ulp).

(** [x + y] and [x * y] on integer-valued numbers. *)
Definition add (x y : Z) : Z := round53 (x + y).
Definition mul (x y : Z) : Z := round53 (x * y).

(** [for (let i = 0; i < n; i++) body] *)
Definition for_loop {A : Type} (n : Z) (body : A -> nat -> A) (init : A) : A :=
  foldl body init (seq 0 (Z.to_nat n)).

(** The values a caller can pass where a [Buffer] is expected. *)
Inductive value : Type :=
| VBuffer (data : list byte)
| VUint8Array (data : list byte)
| VString (str : string)
| VNumber (n : Z)
| VArray (items : list Z)
| VNull
| VUndefined.

(** Error classes. *)
Inductive error : Type :=
| AssertionError
| TypeError
| RangeError.

(** How a call that may throw completes. *)
Inductive completion (A : Type) : Type :=
| Normal (a : A)
| Throw (e : error).
Arguments Normal {A} a.
Arguments Throw {A} e.

End JS.

(** ** Node's [Buffer] *)

Module Buffer.

(** [Buffer.allocUnsafe(n)]: [n] bytes of whatever the allocator holds. *)
Definition allocUnsafe (n : nat) (mem : nat -> byte) : list byte :=
  map mem (seq 0 n).

(** [buf.fill(v)] *)
Definition fill (buf : list byte) (v : Z) : list byte :=
  map (fun _ => byte.of_Z v) buf.

(** [buf[i]] used as a number *)
Definition get (buf : list byte) (i : Z) : Z :=
  if i <? 0 then 0 else
    match buf !! Z.to_nat i with
    | Some b => byte.unsigned b
    | None => 0
    end.

(** [buf[i] = v] *)
Definition set (buf : list byte) (i : Z) (v : Z) : list byte :=
  if i <? 0 then buf else <[Z.to_nat i := byte.of_Z v]> buf.

Definition isBuffer (v : JS.value) : bool :=
  match v with
  | JS.VBuffer _ => true
  | _ => false
  end.

End Buffer.

(** ** Constants *)

Definition K : list Z :=
  [ 0x5a827999;
    0x6ed9eba1;
    0x8f1bbcdc;
    0xca62c1d6 ].

(** [PADDING] is allocated, zero filled and given its first byte when the
    module is loaded; nothing writes to it afterwards. *)
Definition PADDING : list byte :=
  Buffer.set (Buffer.fill (Buffer.allocUnsafe 64 (fun _ => Byte.x00)) 0) 0 0x80.

(** ** Helpers at the end of the source file *)

Definition rotl32 (w b : Z) : Z :=
  JS.bor (JS.shl w b) (JS.shr w (32 - b)).

Definition ch32 (x y z : Z) : Z :=
  JS.bxor (JS.band x y) (JS.band (JS.bnot x) z).

Definition maj32 (x y z : Z) : Z :=
  JS.bxor (JS.bxor (JS.band x y) (JS.band x z)) (JS.band y z).

Definition p32 (x y z : Z) : Z :=
  JS.bxor (JS.bxor x y) z.

(** The [return] statement [ft_1] leaves by. *)
Inductive ft_branch : Type :=
| BranchCh
| BranchParity
| BranchMaj
| BranchFallback.

Definition ft_1_branch (s : Z) : ft_branch :=
  if s =? 0 then BranchCh
  else if (s =? 1) || (s =? 3) then BranchParity
  else if s =? 2 then BranchMaj
  else BranchFallback.

Definition ft_1 (s x y z : Z) : Z :=
  match ft_1_branch s with
  | BranchCh => ch32 x y z
  | BranchParity => p32 x y z
  | BranchMaj => maj32 x y z
  | BranchFallback => 0
  end.

Definition writeU32 (buf : list byte) (value offset : Z) : list byte :=
  let buf := Buffer.set buf offset (JS.shr value 24) in
  let buf := Buffer.set buf (offset + 1) (JS.band (JS.sar value 16) 0xff) in
  let buf := Buffer.set buf (offset + 2) (JS.band (JS.sar value 8) 0xff) in
  Buffer.set buf (offset + 3) (JS.band value 0xff).

(** [+] binds tighter than [|]: the two high bytes are added, the two low
    ones are or-ed in. *)
Definition readU32 (buf : list byte) (offset : Z) : Z :=
  JS.bor
    (JS.bor
       (JS.add
          (JS.mul (JS.band (Buffer.get buf offset) 0xff) 0x1000000)
          (JS.shl (JS.band (Buffer.get buf (offset + 1)) 0xff) 16))
       (JS.shl (JS.band (Buffer.get buf (offset + 2)) 0xff) 8))
    (JS.band (Buffer.get buf (offset + 3)) 0xff).

(** ** The context *)

Record SHA1 : Type := mkSHA1 {
  s : list Z;
  w : list Z;
  block : list byte;
  bytes : Z
}.

Definition set_s (c : SHA1) (v : list Z) : SHA1 :=
  {| s := v; w := w c; block := block c; bytes := bytes c |}.
Definition set_block (c : SHA1) (v : list byte) : SHA1 :=
  {| s := s c; w := w c; block := v; bytes := bytes c |}.
Definition set_bytes (c : SHA1) (v : Z) : SHA1 :=
  {| s := s c; w := w c; block := block c; bytes := v |}.

(** [new SHA1()].  [new Array(n)] creates [n] slots that hold nothing and
    [allocUnsafe] does not clear its memory; what the slots show before
    they are first assigned is left arbitrary ([s0], [w0], [mem]). *)
Definition constructor (s0 w0 : nat -> Z) (mem : nat -> byte) : SHA1 :=
  {| s := map s0 (seq 0 5);
     w := map w0 (seq 0 80);
     block := Buffer.allocUnsafe 64 mem;
     bytes := 0 |}.

Definition init (c : SHA1) : SHA1 :=
  let st := s c in
  let st := <[0%nat := 0x67452301]> st in
  let st := <[1%nat := 0xefcdab89]> st in
  let st := <[2%nat := 0x98badcfe]> st in
  let st := <[3%nat := 0x10325476]> st in
  let st := <[4%nat := 0xc3d2e1f0]> st in
  set_bytes (set_s c st) 0.

(** *** [transform] *)

(** First loop: [w[i] = readU32(chunk, pos + i * 4)] for [i < 16]. *)
Definition schedule_load (chunk : list byte) (pos : Z) (ws : list Z) : list Z :=
  JS.for_loop 16
    (fun ws i => <[i := readU32 chunk (pos + Z.of_nat i * 4)]> ws) ws.

(** Second loop, [i] running on from 16 up to [w.length]:
    [w[i] = rotl32(w[i - 3] ^ w[i - 8] ^ w[i - 14] ^ w[i - 16], 1)]. *)
Definition schedule_slot (ws : list Z) (i : nat) : Z :=
  rotl32
    (JS.bxor
       (JS.bxor
          (JS.bxor (ws !!! (i - 3)%nat) (ws !!! (i - 8)%nat))
          (ws !!! (i - 14)%nat))
       (ws !!! (i - 16)%nat))
    1.

Definition schedule_expand (ws : list Z) : list Z :=
  foldl (fun ws i => <[i := schedule_slot ws i]> ws)
    ws (seq 16 (length ws - 16)).

(** [const s = i / 20 | 0] *)
Definition selector (i : nat) : Z := JS.bor (Z.quot (Z.of_nat i) 20) 0.

(** One pass through the body of the third loop. *)
Definition round (ws : list Z) (v : Z * Z * Z * Z * Z) (i : nat)
  : Z * Z * Z * Z * Z :=
  let '(a, b, c, d, e) := v in
  let sel := selector i in
  let t := rotl32 a 5 in
  let t := JS.add t (ft_1 sel b c d) in
  let t := JS.add t e in
  let t := JS.add t (ws !!! i) in
  let t := JS.add t (K !!! Z.to_nat sel) in
  (t, a, rotl32 b 30, c, d).

Definition transform (c : SHA1) (chunk : list byte) (pos : Z) : SHA1 :=
  let ws := w c in
  let a := s c !!! 0%nat in
  let b := s c !!! 1%nat in
  let c' := s c !!! 2%nat in
  let d := s c !!! 3%nat in
  let e := s c !!! 4%nat in
  let ws := schedule_load chunk pos ws in
  let ws := schedule_expand ws in
  let '(a, b, c', d, e) :=
    JS.for_loop (Z.of_nat (length ws)) (round ws) (a, b, c', d, e) in
  let st := s c in
  let st := <[0%nat := JS.add (st !!! 0%nat) a]> st in
  let st := <[1%nat := JS.add (st !!! 1%nat) b]> st in
  let st := <[2%nat := JS.add (st !!! 2%nat) c']> st in
  let st := <[3%nat := JS.add (st !!! 3%nat) d]> st in
  let st := <[4%nat := JS.add (st !!! 4%nat) e]> st in
  let st := <[0%nat := JS.shr (st !!! 0%nat) 0]> st in
  let st := <[1%nat := JS.shr (st !!! 1%nat) 0]> st in
  let st := <[2%nat := JS.shr (st !!! 2%nat) 0]> st in
  let st := <[3%nat := JS.shr (st !!! 3%nat) 0]> st in
  let st := <[4%nat := JS.shr (st !!! 4%nat) 0]> st in
  {| s := st; w := ws; block := block c; bytes := bytes c |}.

(** *** [_update] *)

(** [while (len >= 64) { this.transform(data, pos); pos += 64; len -= 64; }] *)
Equations? update_blocks (c : SHA1) (data : list byte) (pos len : Z)
  : SHA1 * Z * Z by wf (Z.to_nat len) lt :=
  update_blocks c data pos len with Z_le_gt_dec 64 len => {
    | left _ := update_blocks (transform c data pos) data (pos + 64) (len - 64);
    | right _ := (c, pos, len) }.
Proof. lia. Qed.

(** What [_update] does from the [while] loop on. *)
Definition update_rest (c : SHA1) (data : list byte) (pos len : Z) : SHA1 :=
  let '(c, pos, len) := update_blocks c data pos len in
  set_block c
    (JS.for_loop len
       (fun blk i => Buffer.set blk (Z.of_nat i) (Buffer.get data (pos + Z.of_nat i)))
       (block c)).

Definition _update (c : SHA1) (data : list byte) (len : Z) : SHA1 :=
  let size := JS.band (bytes c) 0x3f in
  let pos := 0 in
  let c := set_bytes c (JS.add (bytes c) len) in
  if 0 <? size then
    let want := 64 - size in
    let want := if len <? want then len else want in
    let c :=
      set_block c
        (JS.for_loop want
           (fun blk i => Buffer.set blk (size + Z.of_nat i) (Buffer.get data (Z.of_nat i)))
           (block c)) in
    let size := size + want in
    let len := len - want in
    let pos := pos + want in
    if size <? 64 then c
    else update_rest (transform c (block c) 0) data pos len
  else update_rest c data pos len.

(** [update]: the assertion fails before the context is touched. *)
Definition update (data : JS.value) (c : SHA1) : JS.completion unit * SHA1 :=
  match data with
  | JS.VBuffer b => (JS.Normal tt, _update c b (Z.of_nat (length b)))
  | _ => (JS.Throw JS.AssertionError, c)
  end.

(** *** [_final] and [final]

    [DESC] is the module-level scratch buffer every context shares. *)
Definition _final (out : list byte) (c : SHA1) (DESC : list byte)
  : list byte * SHA1 * list byte :=
  let len := JS.mul (bytes c) 8 in
  let DESC := writeU32 DESC (Z.quot len 0x100000000) 0 in
  let DESC := writeU32 DESC len 4 in
  let c := _update c PADDING (1 + Z.rem (119 - Z.rem (bytes c) 64) 64) in
  let c := _update c DESC 8 in
  let '(out, c) :=
    JS.for_loop 5
      (fun '(out, c) i =>
         (writeU32 out (s c !!! i) (Z.of_nat i * 4),
          set_s c (<[i := 0]> (s c))))
      (out, c) in
  (out, c, DESC).

Definition final (mem : nat -> byte) (c : SHA1) (DESC : list byte)
  : list byte * SHA1 * list byte :=
  _final (Buffer.allocUnsafe 20 mem) c DESC.

(** ** Module-level state and the static helpers *)

Record Module : Type := mkModule {
  DESC : list byte;
  ctx : SHA1
}.

(** The state the module is in once it is loaded. *)
Definition module_load (desc_mem : nat -> byte) (s0 w0 : nat -> Z)
    (mem : nat -> byte) : Module :=
  {| DESC := Buffer.allocUnsafe 8 desc_mem;
     ctx := constructor s0 w0 mem |}.

(** [SHA1.digest(data)] *)
Definition digest (mem : nat -> byte) (data : JS.value) (m : Module)
  : JS.completion (list byte) * Module :=
  let c := init (ctx m) in
  match update data c with
  | (JS.Normal _, c) =>
      let '(out, c, desc) := final mem c (DESC m) in
      (JS.Normal out, {| DESC := desc; ctx := c |})
  | (JS.Throw e, c) => (JS.Throw e, {| DESC := DESC m; ctx := c |})
  end.

(** [SHA1.root(left, right)] *)
Definition root (mem : nat -> byte) (left right : JS.value) (m : Module)
  : JS.completion (list byte) * Module :=
  match left with
  | JS.VBuffer l =>
      if negb (length l =? 20)%nat then (JS.Throw JS.AssertionError, m)
      else
        match right with
        | JS.VBuffer r =>
            if negb (length r =? 20)%nat then (JS.Throw JS.AssertionError, m)
            else
              let c := init (ctx m) in
              match update left c with
              | (JS.Normal _, c) =>
                  match update right c with
                  | (JS.Normal _, c) =>
                      let '(out, c, desc) := final mem c (DESC m) in
                      (JS.Normal out, {| DESC := desc; ctx := c |})
                  | (JS.Throw e, c) => (JS.Throw e, {| DESC := DESC m; ctx := c |})
                  end
              | (JS.Throw e, c) => (JS.Throw e, {| DESC := DESC m; ctx := c |})
              end
        | _ => (JS.Throw JS.AssertionError, m)
        end
  | _ => (JS.Throw JS.AssertionError, m)
  end.

(** ** Invariants of a context *)

(** The three arrays have the sizes the constructor gives them. *)
Definition wf (c : SHA1) : Prop :=
  length (s c) = 5%nat /\ length (w c) = 80%nat /\ length (block c) = 64%nat.

(** ** The block transform as the specification words it

    Words are integers in [[0, 2^32)]. *)

Module Spec.

Definition word (x : Z) : Prop := 0 <= x < 2 ^ 32.

Definition rotate_left (x n : Z) : Z :=
  Z.lor (Z.shiftl x n mod 2 ^ 32) (Z.shiftr x (32 - n)).

Definition ch (b c d : Z) : Z :=
  Z.lxor (Z.land b c) (Z.land (Z.lxor b 0xffffffff) d).

Definition parity (b c d : Z) : Z := Z.lxor (Z.lxor b c) d.

Definition maj (b c d : Z) : Z :=
  Z.lxor (Z.lxor (Z.land b c) (Z.land b d)) (Z.land c d).

(** Round function and constant of round [i], chosen by range. *)
Definition f (i : nat) (b c d : Z) : Z :=
  if (i <? 20)%nat then ch b c d
  else if (i <? 40)%nat then parity b c d
  else if (i <? 60)%nat then maj b c d
  else parity b c d.

Definition k (i : nat) : Z :=
  if (i <? 20)%nat then 0x5a827999
  else if (i <? 40)%nat then 0x6ed9eba1
  else if (i <? 60)%nat then 0x8f1bbcdc
  else 0xca62c1d6.

(** The [i]-th big-endian 32-bit word of a block. *)
Definition be_word (blk : list byte) (i : nat) : Z :=
  byte.unsigned (blk !!! (4 * i)%nat) * 2 ^ 24
  + byte.unsigned (blk !!! (4 * i + 1)%nat) * 2 ^ 16
  + byte.unsigned (blk !!! (4 * i + 2)%nat) * 2 ^ 8
  + byte.unsigned (blk !!! (4 * i + 3)%nat).

(** Appends [n] further slots to a schedule, each from the four slots
    3, 8, 14 and 16 places before it. *)
Fixpoint expand (n : nat) (sched : list Z) : list Z :=
  match n with
  | O => sched
  | S n =>
      let i := length sched in
      expand n
        (sched ++
           [rotate_left
              (Z.lxor
                 (Z.lxor
                    (Z.lxor (sched !!! (i - 3)%nat) (sched !!! (i - 8)%nat))
                    (sched !!! (i - 14)%nat))
                 (sched !!! (i - 16)%nat))
              1])
  end.

Definition schedule (blk : list byte) : list Z :=
  expand 64 (map (be_word blk) (seq 0 16)).

Definition step (sched : list Z) (v : Z * Z * Z * Z * Z) (i : nat)
  : Z * Z * Z * Z * Z :=
  let '(a, b, c, d, e) := v in
  let t := (rotate_left a 5 + f i b c d + e + sched !!! i + k i) mod 2 ^ 32 in
  (t, a, rotate_left b 30, c, d).

Definition transform (h : list Z) (blk : list byte) : list Z :=
  let h0 := h !!! 0%nat in
  let h1 := h !!! 1%nat in
  let h2 := h !!! 2%nat in
  let h3 := h !!! 3%nat in
  let h4 := h !!! 4%nat in
  let '(a, b, c, d, e) :=
    foldl (step (schedule blk)) (h0, h1, h2, h3, h4) (seq 0 80) in
  [ (h0 + a) mod 2 ^ 32;
    (h1 + b) mod 2 ^ 32;
    (h2 + c) mod 2 ^ 32;
    (h3 + d) mod 2 ^ 32;
    (h4 + e) mod 2 ^ 32 ].

End Spec.

(** ** The hash as a fold of the block transform

    These definitions, and those of the next section, follow the words of
    the specification; the theorems compare the code with them. *)

(** The state after compressing the first [n] 64-byte blocks of [l]. *)
Fixpoint hash_blocks (n : nat) (h : list Z) (l : list byte) : list Z :=
  match n with
  | O => h
  | S n => hash_blocks n (Spec.transform h (take 64 l)) (drop 64 l)
  end.

(** All the complete blocks of [l], and what is left over. *)
Definition absorb (h : list Z) (l : list byte) : list Z :=
  hash_blocks (length l / 64) h l.

Definition leftover (l : list byte) : list byte :=
  drop (64 * (length l / 64)) l.

(** The bytes of a context that are buffered and not yet compressed. *)
Definition pending (c : SHA1) : list byte :=
  take (Z.to_nat (bytes c mod 64)) (block c).

(** What holds of a context between two calls. *)
Definition inv (c : SHA1) : Prop :=
  wf c /\ Forall Spec.word (s c) /\ 0 <= bytes c.

(** ** Padding and digest as the specification words them *)

(** Big-endian bytes of a 32-bit word and of a 64-bit count. *)
Definition be32 (x : Z) : list byte :=
  [ byte.of_Z (x / 2 ^ 24);
    byte.of_Z (x / 2 ^ 16);
    byte.of_Z (x / 2 ^ 8);
    byte.of_Z x ].

Definition be64 (x : Z) : list byte := be32 (x / 2 ^ 32) ++ be32 x.

(** The number of zero bytes that bring [n + 1] bytes to 56 modulo 64. *)
Definition pad_zeros (n : Z) : nat := Z.to_nat ((55 - n) mod 64).

(** What finalize appends to a message of [n] bytes. *)
Definition padding (n : Z) : list byte :=
  Byte.x80 :: replicate (pad_zeros n) Byte.x00 ++ be64 (n * 8).

(** Big-endian serialization of the state words. *)
Definition serialize (h : list Z) : list byte := concat (map be32 h).

(** The five fixed constants [init] seeds the state with. *)
Definition IV : list Z :=
  [0x67452301; 0xefcdab89; 0x98badcfe; 0x10325476; 0xc3d2e1f0].

(** The digest of a whole message. *)
Definition sha1 (msg : list byte) : list byte :=
  serialize (absorb IV (msg ++ padding (Z.of_nat (length msg)))).

(** Feeding the chunks of a partition one after the other. *)
Definition feed_all (chunks : list (list byte)) (c : SHA1) : SHA1 :=
  foldl (fun c x => snd (update (JS.VBuffer x) c)) c chunks.

(** What holds of the module-level state between two calls. *)
Definition wf_module (m : Module) : Prop :=
  wf (ctx m) /\ length (DESC m) = 8%nat.

(** Hexadecimal rendering of a byte sequence, the way the specification
    writes digests. *)
Definition hex_digit (n : Z) : string :=
  String.substring (Z.to_nat n) 1 "0123456789abcdef".

Definition to_hex (l : list byte) : string :=
  foldr
    (fun b acc =>
       (hex_digit (byte.unsigned b / 16) ++ hex_digit (byte.unsigned b mod 16) ++ acc)%string)
    EmptyString l.

Definition hex_of_completion (r : JS.completion (list byte)) : option string :=
  match r with
  | JS.Normal out => Some (to_hex out)
  | JS.Throw _ => None
  end.

(** Both arguments of [root] pass its two assertions. *)
Definition is_digest_buffer (v : JS.value) : bool :=
  match v with
  | JS.VBuffer l => (length l =? 20)%nat
  | _ => false
  end.

(** Concrete inputs used for evaluation. *)
Definition abc : list byte := [Byte.x61; Byte.x62; Byte.x63].

Definition module0 : Module :=
  module_load (fun _ => Byte.xaa) (fun _ => 7) (fun _ => 9) (fun _ => Byte.x55).

Definition mem0 : nat -> byte := fun _ => Byte.xff.

Definition ctx0 : SHA1 :=
  constructor (fun _ => 0) (fun _ => 0) (fun _ => Byte.x00).

(** The working variables of the code agree with those of the
    specification as 32-bit patterns. *)
Definition vrel (v v' : Z * Z * Z * Z * Z) : Prop :=
  let '(a, b, c, d, e) := v in
  let '(a', b', c', d', e') := v' in
  a mod 2 ^ 32 = a' /\ b mod 2 ^ 32 = b' /\ c mod 2 ^ 32 = c'
  /\ d mod 2 ^ 32 = d' /\ e mod 2 ^ 32 = e'.

(** The working variables of the code stay far inside the range in which
    a double is an exact integer. *)
Definition vsmall (v : Z * Z * Z * Z * Z) : Prop :=
  let '(a, b, c, d, e) := v in
  - 2 ^ 34 < a < 2 ^ 34 /\ - 2 ^ 34 < b < 2 ^ 34 /\ - 2 ^ 32 < c < 2 ^ 32
  /\ - 2 ^ 32 < d < 2 ^ 32 /\ - 2 ^ 32 < e < 2 ^ 32.

Definition int32 (x : Z) : Prop := - 2 ^ 31 <= x < 2 ^ 31.

(** ** Further parts of the code

    [SHA1.hash()] returns a new context. *)
Definition hash (s0 w0 : nat -> Z) (mem : nat -> byte) : SHA1 :=
  constructor s0 w0 mem.

(** The five big-endian words of a digest. *)
Definition digest_words (d : list byte) : list Z :=
  map (Spec.be_word d) (seq 0 5).




(** * Properties *)

Ltac elia := zify; Z.to_euclidean_division_equations; lia.

(** ** Exact arithmetic on doubles *)

Lemma round53_exact z : Z.abs z <= 2 ^ 53 -> JS.round53 z = z.
Proof.
  intros Hz. unfold JS.round53.
  destruct (Z.leb_spec (Z.abs z) (2 ^ 53)); [done|lia].
Qed.

Lemma add_exact x y : 0 <= x -> 0 <= y -> x + y <= 2 ^ 53 -> JS.add x y = x + y.
Proof. intros. unfold JS.add. apply round53_exact. lia. Qed.

Lemma add_small x y :
  - 2 ^ 52 < x < 2 ^ 52 -> - 2 ^ 52 < y < 2 ^ 52 -> JS.add x y = x + y.
Proof. intros. unfold JS.add. apply round53_exact. lia. Qed.

Lemma mul_small x y :
  0 <= x < 2 ^ 26 -> 0 <= y < 2 ^ 26 -> JS.mul x y = x * y.
Proof. intros. unfold JS.mul. apply round53_exact. nia. Qed.

(** Past [2^53] the counter would stop counting single bytes. *)
Lemma add_inexact : JS.add (2 ^ 53) 1 = 2 ^ 53.
Proof. reflexivity. Qed.

(** Scaling by eight only moves the exponent of a double. *)
Lemma round53_multiple z u :
  0 < z -> 0 < u -> z mod u = 0 ->
  Z.sgn z
  * ((if (2 * (z mod u) <? u) || ((2 * (z mod u) =? u) && Z.even (z / u))
      then z / u else z / u + 1) * u)
  = z.
Proof.
  intros Hz Hu Hr. rewrite Hr.
  destruct (Z.ltb_spec (2 * 0) u); [|lia]. cbn [orb].
  rewrite Z.sgn_pos by done. elia.
Qed.

Lemma mul_8_exact x : 0 <= x <= 2 ^ 53 -> JS.mul x 8 = x * 8.
Proof.
  intros Hx. unfold JS.mul, JS.round53.
  destruct (Z.leb_spec (Z.abs (x * 8)) (2 ^ 53)) as [|Hbig]; [done|].
  rewrite Z.abs_eq in * by lia.
  pose proof (Z.log2_spec (x * 8) ltac:(lia)) as [Hlo Hhi].
  pose proof (Z.log2_nonneg (x * 8)) as Hnn.
  assert (53 < Z.succ (Z.log2 (x * 8))) as H53
    by (apply (Z.pow_lt_mono_r_iff 2); lia).
  assert (Z.log2 (x * 8) <= 56) as H56
    by (apply (Z.pow_le_mono_r_iff 2); lia).
  assert (Z.log2 (x * 8) = 53 \/ Z.log2 (x * 8) = 54
          \/ Z.log2 (x * 8) = 55 \/ Z.log2 (x * 8) = 56)
    as [He | [He | [He | He]]] by lia;
    rewrite He in *.
  - change (2 ^ (53 - 52)) with 2. apply round53_multiple; elia.
  - change (2 ^ (54 - 52)) with 4. apply round53_multiple; elia.
  - change (2 ^ (55 - 52)) with 8. apply round53_multiple; elia.
  - change (2 ^ (56 - 52)) with 16. apply round53_multiple; elia.
Qed.

(** ** 32-bit coercions *)

Lemma ToInt32_mod x : JS.ToInt32 x mod 2 ^ 32 = x mod 2 ^ 32.
Proof. unfold JS.ToInt32. Z.div_mod_to_equations. lia. Qed.

Lemma ToInt32_range x : - 2 ^ 31 <= JS.ToInt32 x < 2 ^ 31.
Proof. unfold JS.ToInt32. Z.div_mod_to_equations. lia. Qed.

Lemma ToInt32_small x : - 2 ^ 31 <= x < 2 ^ 31 -> JS.ToInt32 x = x.
Proof. unfold JS.ToInt32. intros. Z.div_mod_to_equations. lia. Qed.

Lemma lor_mod32 a b : Z.lor a b mod 2 ^ 32 = Z.lor (a mod 2 ^ 32) (b mod 2 ^ 32).
Proof. rewrite <- !Z.land_ones by lia. Z.bitblast. Qed.

Lemma land_mod32 a b : Z.land a b mod 2 ^ 32 = Z.land (a mod 2 ^ 32) (b mod 2 ^ 32).
Proof. rewrite <- !Z.land_ones by lia. Z.bitblast. Qed.

Lemma lxor_mod32 a b : Z.lxor a b mod 2 ^ 32 = Z.lxor (a mod 2 ^ 32) (b mod 2 ^ 32).
Proof. rewrite <- !Z.land_ones by lia. Z.bitblast. Qed.

Lemma lnot_mod32 a : Z.lnot a mod 2 ^ 32 = Z.lxor (a mod 2 ^ 32) 0xffffffff.
Proof.
  change 0xffffffff with (Z.ones 32).
  rewrite <- !Z.land_ones by lia. Z.bitblast.
Qed.

Lemma bor_mod x y : JS.bor x y mod 2 ^ 32 = Z.lor (x mod 2 ^ 32) (y mod 2 ^ 32).
Proof. unfold JS.bor. by rewrite ToInt32_mod, lor_mod32, !ToInt32_mod. Qed.

Lemma band_mod x y : JS.band x y mod 2 ^ 32 = Z.land (x mod 2 ^ 32) (y mod 2 ^ 32).
Proof. unfold JS.band. by rewrite ToInt32_mod, land_mod32, !ToInt32_mod. Qed.

Lemma bxor_mod x y : JS.bxor x y mod 2 ^ 32 = Z.lxor (x mod 2 ^ 32) (y mod 2 ^ 32).
Proof. unfold JS.bxor. by rewrite ToInt32_mod, lxor_mod32, !ToInt32_mod. Qed.

Lemma bnot_mod x : JS.bnot x mod 2 ^ 32 = Z.lxor (x mod 2 ^ 32) 0xffffffff.
Proof. unfold JS.bnot. by rewrite ToInt32_mod, lnot_mod32, ToInt32_mod. Qed.

Lemma bor_range x y : - 2 ^ 31 <= JS.bor x y < 2 ^ 31.
Proof. apply ToInt32_range. Qed.

Lemma bxor_range x y : - 2 ^ 31 <= JS.bxor x y < 2 ^ 31.
Proof. apply ToInt32_range. Qed.

Lemma shift_count n : 0 <= n < 32 -> Z.land (JS.ToUint32 n) 31 = n.
Proof.
  intros. unfold JS.ToUint32. rewrite Z.mod_small by lia.
  change 31 with (Z.ones 5). rewrite Z.land_ones by lia.
  apply Z.mod_small. lia.
Qed.

Lemma shl_mod x n :
  0 <= n < 32 -> JS.shl x n mod 2 ^ 32 = Z.shiftl (x mod 2 ^ 32) n mod 2 ^ 32.
Proof.
  intros. unfold JS.shl. rewrite shift_count, ToInt32_mod by done.
  rewrite !Z.shiftl_mul_pow2 by lia.
  rewrite <- (Z.mul_mod_idemp_l (JS.ToInt32 x)), ToInt32_mod by lia.
  by rewrite Z.mul_mod_idemp_l by lia.
Qed.

Lemma shr_eq x n : 0 <= n < 32 -> JS.shr x n = Z.shiftr (x mod 2 ^ 32) n.
Proof. intros. unfold JS.shr. by rewrite shift_count. Qed.

Lemma rotl32_mod x n :
  0 < n < 32 -> rotl32 x n mod 2 ^ 32 = Spec.rotate_left (x mod 2 ^ 32) n.
Proof.
  intros. unfold rotl32, Spec.rotate_left.
  rewrite bor_mod, shl_mod, shr_eq by lia.
  f_equal. apply Z.mod_small.
  rewrite Z.shiftr_div_pow2 by lia.
  pose proof (Z.mod_pos_bound x (2 ^ 32) ltac:(lia)).
  split; [apply Z.div_pos; lia|].
  apply Z.div_lt_upper_bound; [lia|].
  assert (0 < 2 ^ (32 - n)) by (apply Z.pow_pos_nonneg; lia). nia.
Qed.

Lemma rotl32_range x n : int32 (rotl32 x n).
Proof. apply bor_range. Qed.

(** ** Round functions, selector and constants *)

Lemma ch32_mod x y z :
  ch32 x y z mod 2 ^ 32
  = Spec.ch (x mod 2 ^ 32) (y mod 2 ^ 32) (z mod 2 ^ 32).
Proof.
  unfold ch32, Spec.ch.
  by rewrite bxor_mod, !band_mod, bnot_mod.
Qed.

Lemma maj32_mod x y z :
  maj32 x y z mod 2 ^ 32
  = Spec.maj (x mod 2 ^ 32) (y mod 2 ^ 32) (z mod 2 ^ 32).
Proof.
  unfold maj32, Spec.maj.
  by rewrite !bxor_mod, !band_mod.
Qed.

Lemma p32_mod x y z :
  p32 x y z mod 2 ^ 32
  = Spec.parity (x mod 2 ^ 32) (y mod 2 ^ 32) (z mod 2 ^ 32).
Proof.
  unfold p32, Spec.parity.
  by rewrite !bxor_mod.
Qed.

Lemma selector_eq i : (i < 80)%nat -> selector i = Z.of_nat i / 20.
Proof.
  intros. unfold selector, JS.bor.
  rewrite Z.quot_div_nonneg by lia.
  assert (0 <= Z.of_nat i / 20 < 4) by (Z.div_mod_to_equations; lia).
  rewrite (ToInt32_small 0), Z.lor_0_r by lia.
  rewrite (ToInt32_small (_ / 20)) by lia.
  apply ToInt32_small. lia.
Qed.

Lemma selector_cases i :
  (i < 80)%nat ->
  ((i < 20)%nat /\ selector i = 0)
  \/ ((20 <= i < 40)%nat /\ selector i = 1)
  \/ ((40 <= i < 60)%nat /\ selector i = 2)
  \/ ((60 <= i < 80)%nat /\ selector i = 3).
Proof.
  intros Hi. rewrite selector_eq by done.
  Z.div_mod_to_equations. lia.
Qed.

Ltac selector_cases i H :=
  destruct (selector_cases i H) as [[? ->]|[[? ->]|[[? ->]|[? ->]]]].

Ltac nat_ltb :=
  repeat match goal with
    | |- context [(?a <? ?b)%nat] =>
        first [ rewrite (proj2 (Nat.ltb_lt a b)) by lia
              | rewrite (proj2 (Nat.ltb_ge a b)) by lia ]
    end.

Lemma ft_1_mod i b c d :
  (i < 80)%nat ->
  ft_1 (selector i) b c d mod 2 ^ 32
  = Spec.f i (b mod 2 ^ 32) (c mod 2 ^ 32) (d mod 2 ^ 32).
Proof.
  intros Hi. unfold Spec.f, ft_1.
  selector_cases i Hi; nat_ltb; cbv [ft_1_branch Z.eqb Pos.eqb orb];
    auto using ch32_mod, maj32_mod, p32_mod.
Qed.

Lemma K_selector i : (i < 80)%nat -> K !!! Z.to_nat (selector i) = Spec.k i.
Proof.
  intros Hi. unfold Spec.k.
  selector_cases i Hi; nat_ltb; reflexivity.
Qed.

(** ** Reading a big-endian word *)

Lemma Buffer_get_lookup buf i b :
  buf !! i = Some b -> Buffer.get buf (Z.of_nat i) = byte.unsigned b.
Proof.
  intros H. unfold Buffer.get.
  destruct (Z.ltb_spec (Z.of_nat i) 0); [lia|].
  by rewrite Nat2Z.id, H.
Qed.

Lemma Buffer_get_range buf i : 0 <= Buffer.get buf i < 256.
Proof.
  unfold Buffer.get. destruct (i <? 0); [lia|].
  destruct (buf !! Z.to_nat i) as [b|]; [|lia].
  apply byte.unsigned_range.
Qed.

Lemma band_byte x : 0 <= x < 256 -> JS.band x 0xff = x.
Proof.
  intros. unfold JS.band. rewrite (ToInt32_small x), (ToInt32_small 0xff) by lia.
  change 0xff with (Z.ones 8). rewrite Z.land_ones by lia.
  rewrite Z.mod_small by lia. apply ToInt32_small. lia.
Qed.

Lemma shl_small x n :
  0 <= n < 32 -> 0 <= x -> x * 2 ^ n < 2 ^ 31 -> JS.shl x n = x * 2 ^ n.
Proof.
  intros Hn Hx Hlt. unfold JS.shl.
  assert (0 < 2 ^ n) by (apply Z.pow_pos_nonneg; lia).
  rewrite shift_count by done.
  rewrite (ToInt32_small x) by nia.
  rewrite Z.shiftl_mul_pow2 by lia.
  apply ToInt32_small. nia.
Qed.

Lemma be_sum_lor b0 b1 b2 b3 :
  0 <= b0 < 256 -> 0 <= b1 < 256 -> 0 <= b2 < 256 -> 0 <= b3 < 256 ->
  Z.lor (Z.lor (b0 * 2 ^ 24 + b1 * 2 ^ 16) (b2 * 2 ^ 8)) b3
  = b0 * 2 ^ 24 + b1 * 2 ^ 16 + b2 * 2 ^ 8 + b3.
Proof.
  intros.
  rewrite <- !Z.shiftl_mul_pow2 by lia.
  rewrite <- (Z.mod_small b0 (2 ^ 8)), <- (Z.mod_small b1 (2 ^ 8)),
    <- (Z.mod_small b2 (2 ^ 8)), <- (Z.mod_small b3 (2 ^ 8)) by lia.
  rewrite <- !Z.land_ones by lia.
  rewrite <- (Z.or_to_plus (_ ≪ 24) (_ ≪ 16)) by Z.bitblast.
  rewrite <- (Z.or_to_plus (Z.lor _ _) (_ ≪ 8)) by Z.bitblast.
  rewrite <- (Z.or_to_plus (Z.lor _ _) (Z.land b3 _)) by Z.bitblast.
  reflexivity.
Qed.

Lemma readU32_mod buf off b0 b1 b2 b3 :
  buf !! off = Some b0 ->
  buf !! (off + 1)%nat = Some b1 ->
  buf !! (off + 2)%nat = Some b2 ->
  buf !! (off + 3)%nat = Some b3 ->
  readU32 buf (Z.of_nat off) mod 2 ^ 32
  = byte.unsigned b0 * 2 ^ 24 + byte.unsigned b1 * 2 ^ 16
    + byte.unsigned b2 * 2 ^ 8 + byte.unsigned b3.
Proof.
  intros H0 H1 H2 H3. unfold readU32.
  replace (Z.of_nat off + 1) with (Z.of_nat (off + 1)) by lia.
  replace (Z.of_nat off + 2) with (Z.of_nat (off + 2)) by lia.
  replace (Z.of_nat off + 3) with (Z.of_nat (off + 3)) by lia.
  rewrite (Buffer_get_lookup _ _ _ H0), (Buffer_get_lookup _ _ _ H1),
    (Buffer_get_lookup _ _ _ H2), (Buffer_get_lookup _ _ _ H3).
  pose proof (byte.unsigned_range b0). pose proof (byte.unsigned_range b1).
  pose proof (byte.unsigned_range b2). pose proof (byte.unsigned_range b3).
  rewrite !band_byte by lia.
  rewrite !shl_small by lia.
  rewrite mul_small, add_small by lia.
  rewrite !bor_mod.
  change 0x1000000 with (2 ^ 24).
  rewrite !Z.mod_small by lia.
  apply be_sum_lor; lia.
Qed.

(** ** The message schedule *)

Lemma foldl_fill {A} (g : nat -> A) n (l : list A) :
  (n <= length l)%nat ->
  foldl (fun l i => <[i := g i]> l) l (seq 0 n) = map g (seq 0 n) ++ drop n l.
Proof.
  induction n as [|n IH]; intros Hn; [done|].
  rewrite seq_S, foldl_app, map_app, IH by lia. cbn [foldl map Nat.add].
  destruct (lookup_lt_is_Some_2 l n ltac:(lia)) as [x Hx].
  rewrite insert_app_r_alt by (rewrite length_map, length_seq; lia).
  rewrite length_map, length_seq, Nat.sub_diag.
  rewrite (drop_S _ _ _ Hx). cbn. by rewrite <- app_assoc.
Qed.

Lemma foldl_insert_length {A} (f : list A -> nat -> A) l : forall ws,
  length (foldl (fun ws i => <[i := f ws i]> ws) ws l) = length ws.
Proof.
  induction l as [|x l IH]; intros ws; [done|].
  cbn [foldl]. by rewrite IH, length_insert.
Qed.

Lemma schedule_length chunk pos ws :
  length (schedule_expand (schedule_load chunk pos ws)) = length ws.
Proof.
  unfold schedule_expand, schedule_load, JS.for_loop.
  by rewrite (foldl_insert_length schedule_slot),
    (foldl_insert_length (fun _ i => readU32 chunk (pos + Z.of_nat i * 4))).
Qed.

Lemma schedule_load_eq chunk pos ws :
  (16 <= length ws)%nat ->
  schedule_load chunk pos ws
  = map (fun i => readU32 chunk (pos + Z.of_nat i * 4)) (seq 0 16) ++ drop 16 ws.
Proof. intros. unfold schedule_load, JS.for_loop. by apply foldl_fill. Qed.

Lemma schedule_slot_mod ws sp i :
  (16 <= i)%nat -> length sp = i ->
  (forall j, (j < i)%nat -> ws !!! j mod 2 ^ 32 = sp !!! j) ->
  schedule_slot ws i mod 2 ^ 32
  = Spec.rotate_left
      (Z.lxor
         (Z.lxor
            (Z.lxor (sp !!! (i - 3)%nat) (sp !!! (i - 8)%nat))
            (sp !!! (i - 14)%nat))
         (sp !!! (i - 16)%nat))
      1.
Proof.
  intros Hi Hlen Hrel. unfold schedule_slot.
  rewrite rotl32_mod, !bxor_mod by lia.
  by rewrite !Hrel by lia.
Qed.

Lemma expand_rel n : forall a ws sp,
  (16 <= a)%nat -> length sp = a -> (a + n <= length ws)%nat ->
  (forall j, (j < a)%nat -> ws !!! j mod 2 ^ 32 = sp !!! j) ->
  let ws' := foldl (fun ws i => <[i := schedule_slot ws i]> ws) ws (seq a n) in
  let sp' := Spec.expand n sp in
  length ws' = length ws /\ length sp' = (a + n)%nat
  /\ forall j, (j < a + n)%nat -> ws' !!! j mod 2 ^ 32 = sp' !!! j.
Proof.
  induction n as [|n IH]; intros a ws sp Ha Hlen Hn Hrel; cbn zeta.
  { cbn. rewrite Nat.add_0_r. auto. }
  cbn [seq foldl Spec.expand].
  pose proof (schedule_slot_mod ws sp a Ha Hlen Hrel) as Hslot.
  rewrite Hlen.
  match goal with |- context [Spec.expand n (sp ++ [?x])] => set (new := x) in * end.
  destruct (IH (S a) (<[a := schedule_slot ws a]> ws) (sp ++ [new]))
    as (Hl1 & Hl2 & Hr); try lia.
  - rewrite length_app. cbn. lia.
  - rewrite length_insert. lia.
  - intros j Hj. destruct (decide (j = a)) as [->|Hne].
    + rewrite list_lookup_total_insert_eq by lia.
      rewrite lookup_total_app_r by lia.
      rewrite Hlen, Nat.sub_diag. exact Hslot.
    + rewrite list_lookup_total_insert_ne by done.
      rewrite lookup_total_app_l by lia. apply Hrel. lia.
  - rewrite length_insert in Hl1.
    split; [done|]. split; [lia|].
    intros j Hj. apply Hr. lia.
Qed.

Lemma take_drop_lookup {A} (l : list A) pos n i :
  (i < n)%nat -> take n (drop pos l) !! i = l !! (pos + i)%nat.
Proof. intros. rewrite lookup_take_lt by done. apply lookup_drop. Qed.

Lemma be_word_readU32 chunk pos i :
  (i < 16)%nat -> (pos + 64 <= length chunk)%nat ->
  readU32 chunk (Z.of_nat pos + Z.of_nat i * 4) mod 2 ^ 32
  = Spec.be_word (take 64 (drop pos chunk)) i.
Proof.
  intros Hi Hlen. unfold Spec.be_word.
  replace (Z.of_nat pos + Z.of_nat i * 4) with (Z.of_nat (pos + 4 * i)) by lia.
  destruct (lookup_lt_is_Some_2 chunk (pos + 4 * i) ltac:(lia)) as [b0 H0].
  destruct (lookup_lt_is_Some_2 chunk (pos + 4 * i + 1) ltac:(lia)) as [b1 H1].
  destruct (lookup_lt_is_Some_2 chunk (pos + 4 * i + 2) ltac:(lia)) as [b2 H2].
  destruct (lookup_lt_is_Some_2 chunk (pos + 4 * i + 3) ltac:(lia)) as [b3 H3].
  rewrite (readU32_mod _ _ _ _ _ _ H0 H1 H2 H3).
  rewrite !list_lookup_total_alt, !take_drop_lookup by lia.
  replace (pos + (4 * i + 1))%nat with (pos + 4 * i + 1)%nat by lia.
  replace (pos + (4 * i + 2))%nat with (pos + 4 * i + 2)%nat by lia.
  replace (pos + (4 * i + 3))%nat with (pos + 4 * i + 3)%nat by lia.
  by rewrite H0, H1, H2, H3.
Qed.

Lemma schedule_rel chunk pos ws :
  length ws = 80%nat -> (pos + 64 <= length chunk)%nat ->
  let ws' := schedule_expand (schedule_load chunk (Z.of_nat pos) ws) in
  length ws' = 80%nat
  /\ forall j, (j < 80)%nat ->
       ws' !!! j mod 2 ^ 32 = Spec.schedule (take 64 (drop pos chunk)) !!! j.
Proof.
  intros Hws Hlen. cbn zeta. unfold schedule_expand, Spec.schedule.
  rewrite schedule_load_eq by lia.
  set (ws1 := _ ++ drop 16 ws).
  assert (length ws1 = 80%nat) as Hl1.
  { unfold ws1. rewrite length_app, length_map, length_seq, length_drop. lia. }
  rewrite Hl1. change (80 - 16)%nat with 64%nat.
  destruct (expand_rel 64 16 ws1
              (map (Spec.be_word (take 64 (drop pos chunk))) (seq 0 16)))
    as (H1 & _ & H2); try lia.
  - by rewrite length_map, length_seq.
  - intros j Hj. unfold ws1.
    rewrite lookup_total_app_l by (rewrite length_map, length_seq; lia).
    rewrite !list_lookup_total_alt, !list_lookup_fmap, !lookup_seq_lt by lia.
    cbn. by apply be_word_readU32.
  - split; [lia|]. intros j Hj. apply H2. lia.
Qed.

Lemma foldl_insert_all {A} `{!Inhabited A} (P : A -> Prop)
    (f : list A -> nat -> A) l :
  (forall ws i, P (f ws i)) ->
  forall ws j,
  (j < length ws)%nat -> j ∈ l \/ P (ws !!! j) ->
  P (foldl (fun ws i => <[i := f ws i]> ws) ws l !!! j).
Proof.
  intros Hf. induction l as [|x l IH]; intros ws j Hj Hin; cbn [foldl].
  - destruct Hin as [Hin|]; [|done]. by apply elem_of_nil in Hin.
  - apply IH; [by rewrite length_insert|].
    destruct (decide (j = x)) as [->|Hne].
    + right. by rewrite list_lookup_total_insert_eq.
    + rewrite list_lookup_total_insert_ne by done.
      destruct Hin as [Hin|]; [|by right].
      apply elem_of_cons in Hin as [|]; [done|by left].
Qed.

Lemma schedule_int32 chunk pos ws j :
  length ws = 80%nat -> (j < 80)%nat ->
  int32 (schedule_expand (schedule_load chunk pos ws) !!! j).
Proof.
  intros Hlen Hj. unfold schedule_expand.
  assert (length (schedule_load chunk pos ws) = 80%nat) as Hl
    by (unfold schedule_load, JS.for_loop;
        by rewrite (foldl_insert_length
                      (fun _ i => readU32 chunk (pos + Z.of_nat i * 4)))).
  rewrite Hl.
  apply (foldl_insert_all int32 schedule_slot);
    [intros; apply rotl32_range | lia |].
  destruct (decide (j < 16)%nat).
  - right. unfold schedule_load, JS.for_loop.
    apply (foldl_insert_all int32
             (fun _ i => readU32 chunk (pos + Z.of_nat i * 4)));
      [intros; apply bor_range | lia |].
    left. apply elem_of_seq. lia.
  - left. apply elem_of_seq. lia.
Qed.

(** ** The eighty rounds *)

Lemma ft_1_range sel x y z : int32 (ft_1 sel x y z).
Proof.
  unfold ft_1, int32.
  destruct (ft_1_branch sel); try apply bxor_range. lia.
Qed.

Lemma k_range i : 0 <= Spec.k i < 2 ^ 32.
Proof. unfold Spec.k. repeat case_match; lia. Qed.

Lemma round_rel ws sp i v v' :
  (i < 80)%nat -> ws !!! i mod 2 ^ 32 = sp !!! i -> int32 (ws !!! i) ->
  vrel v v' /\ vsmall v ->
  vrel (round ws v i) (Spec.step sp v' i) /\ vsmall (round ws v i).
Proof.
  destruct v as [[[[a b] c] d] e], v' as [[[[a' b'] c'] d'] e'].
  intros Hi Hw Hwr [(Ha & Hb & Hc & Hd & He) (Ba & Bb & Bc & Bd & Be)]. subst.
  unfold round, Spec.step, vrel, vsmall.
  rewrite K_selector by done.
  rewrite <- ft_1_mod, <- !rotl32_mod, <- Hw by (done || lia).
  pose proof (rotl32_range a 5) as Hr5.
  pose proof (rotl32_range b 30) as Hr30.
  pose proof (ft_1_range (selector i) b c d) as Hf.
  pose proof (k_range i) as Hk.
  unfold int32 in *.
  revert Hr5 Hr30 Hf Hwr Hk.
  generalize (rotl32 a 5) (rotl32 b 30) (ft_1 (selector i) b c d)
    (ws !!! i) (Spec.k i).
  intros r5 r30 f wi ki Hr5 Hr30 Hf Hwr Hk.
  rewrite (add_small r5 f) by lia.
  rewrite (add_small (r5 + f) e) by lia.
  rewrite (add_small (r5 + f + e) wi) by lia.
  rewrite (add_small (r5 + f + e + wi) ki) by lia.
  split; [|lia].
  split; [|done].
  Z.div_mod_to_equations. lia.
Qed.

Lemma foldl_rel {A B C} (R : A -> B -> Prop) (f : A -> C -> A) (g : B -> C -> B) l :
  forall a b,
  R a b -> (forall i a b, i ∈ l -> R a b -> R (f a i) (g b i)) ->
  R (foldl f a l) (foldl g b l).
Proof.
  induction l as [|x l IH]; intros a b Hab Hstep; [done|].
  cbn. apply IH.
  - apply Hstep; [left|done].
  - intros. apply Hstep; [by right|done].
Qed.

Lemma rounds_rel ws sp v v' :
  length ws = 80%nat ->
  (forall j, (j < 80)%nat ->
     ws !!! j mod 2 ^ 32 = sp !!! j /\ int32 (ws !!! j)) ->
  vrel v v' /\ vsmall v ->
  vrel (JS.for_loop (Z.of_nat (length ws)) (round ws) v)
       (foldl (Spec.step sp) v' (seq 0 80))
  /\ vsmall (JS.for_loop (Z.of_nat (length ws)) (round ws) v).
Proof.
  intros Hlen Hws Hv. unfold JS.for_loop. rewrite Hlen.
  change (Z.to_nat (Z.of_nat 80)) with 80%nat.
  apply (foldl_rel (fun x y => vrel x y /\ vsmall x)); [done|].
  intros i x y Hi Hxy. apply elem_of_seq in Hi.
  apply round_rel; [lia | | | done]; apply Hws; lia.
Qed.

(** ** The block transform *)

Lemma list_length_5 {A} (l : list A) :
  length l = 5%nat -> exists a b c d e, l = [a; b; c; d; e].
Proof.
  destruct l as [|a [|b [|c [|d [|e [|]]]]]]; try discriminate. eauto 6.
Qed.

Lemma shr_0 x : JS.shr x 0 = x mod 2 ^ 32.
Proof. rewrite shr_eq by lia. apply Z.shiftr_0_r. Qed.

Lemma transform_eq c chunk pos :
  wf c -> Forall Spec.word (s c) ->
  (pos + 64 <= length chunk)%nat ->
  transform c chunk (Z.of_nat pos)
  = {| s := Spec.transform (s c) (take 64 (drop pos chunk));
       w := schedule_expand (schedule_load chunk (Z.of_nat pos) (w c));
       block := block c;
       bytes := bytes c |}.
Proof.
  intros (Hs & Hw & Hb) Hwords Hlen.
  destruct (schedule_rel chunk pos (w c) Hw Hlen) as [Hl Hrel].
  destruct (list_length_5 _ Hs) as (h0 & h1 & h2 & h3 & h4 & Hst).
  unfold transform, Spec.transform. rewrite Hst in *.
  cbn [lookup_total list_lookup_total].
  repeat (apply Forall_cons in Hwords as [? Hwords]).
  unfold Spec.word in *.
  assert (vrel (h0, h1, h2, h3, h4) (h0, h1, h2, h3, h4)
          /\ vsmall (h0, h1, h2, h3, h4)) as Hv.
  { split; cbn; repeat split; try apply Z.mod_small; lia. }
  assert (forall j, (j < 80)%nat ->
            schedule_expand (schedule_load chunk (Z.of_nat pos) (w c)) !!! j
              mod 2 ^ 32
            = Spec.schedule (take 64 (drop pos chunk)) !!! j
            /\ int32 (schedule_expand
                        (schedule_load chunk (Z.of_nat pos) (w c)) !!! j))
    as Hrel' by (intros j Hj; split; [by apply Hrel | by apply schedule_int32]).
  pose proof (rounds_rel _ _ _ _ Hl Hrel' Hv) as [Hr Hsm].
  destruct (JS.for_loop _ _ _) as [[[[a b] c'] d] e].
  destruct (foldl _ _ _) as [[[[a' b'] c''] d'] e'].
  destruct Hr as (<- & <- & <- & <- & <-).
  destruct Hsm as (Ba & Bb & Bc & Bd & Be).
  cbn [list_insert insert lookup_total list_lookup_total].
  rewrite !add_small by lia.
  rewrite !shr_0, !Z.add_mod_idemp_r by lia.
  reflexivity.
Qed.

Lemma transform_words h blk : Forall Spec.word (Spec.transform h blk).
Proof.
  unfold Spec.transform.
  destruct (foldl _ _ _) as [[[[a b] c] d] e].
  repeat constructor; apply Z.mod_pos_bound; lia.
Qed.

Lemma transform_length h blk : length (Spec.transform h blk) = 5%nat.
Proof.
  unfold Spec.transform.
  by destruct (foldl _ _ _) as [[[[a b] c] d] e].
Qed.

(** ** Copy loops *)

Lemma Buffer_set_nat buf i v :
  Buffer.set buf (Z.of_nat i) v = <[i := byte.of_Z v]> buf.
Proof.
  unfold Buffer.set. destruct (Z.ltb_spec (Z.of_nat i) 0); [lia|].
  by rewrite Nat2Z.id.
Qed.

Lemma Buffer_get_nat buf i :
  Buffer.get buf (Z.of_nat i) = byte.unsigned (buf !!! i).
Proof.
  unfold Buffer.get. destruct (Z.ltb_spec (Z.of_nat i) 0); [lia|].
  rewrite Nat2Z.id, list_lookup_total_alt.
  by destruct (buf !! i).
Qed.

Lemma foldl_ext {A B} (f g : A -> B -> A) l :
  (forall a i, f a i = g a i) -> forall a, foldl f a l = foldl g a l.
Proof.
  intros Hfg. induction l as [|x l IH]; intros a; [done|].
  cbn. by rewrite Hfg, IH.
Qed.

Lemma foldl_fill_at {A} (g : nat -> A) dst n (l : list A) :
  (dst + n <= length l)%nat ->
  foldl (fun l i => <[(dst + i)%nat := g i]> l) l (seq 0 n)
  = take dst l ++ map g (seq 0 n) ++ drop (dst + n) l.
Proof.
  induction n as [|n IH]; intros Hn.
  { cbn. by rewrite Nat.add_0_r, take_drop. }
  rewrite seq_S, foldl_app, map_app, IH by lia. cbn [foldl map Nat.add].
  destruct (lookup_lt_is_Some_2 l (dst + n) ltac:(lia)) as [x Hx].
  rewrite insert_app_r_alt by (rewrite length_take; lia).
  rewrite length_take, Nat.min_l by lia.
  rewrite insert_app_r_alt by (rewrite length_map, length_seq; lia).
  rewrite length_map, length_seq.
  replace (dst + n - dst - n)%nat with 0%nat by lia.
  rewrite (drop_S _ _ _ Hx). cbn.
  rewrite <- app_assoc. cbn.
  by replace (dst + S n)%nat with (S (dst + n)) by lia.
Qed.

Lemma map_lookup_total_seq {A} `{!Inhabited A} (l : list A) src n :
  (src + n <= length l)%nat ->
  map (fun i => l !!! (src + i)%nat) (seq 0 n) = take n (drop src l).
Proof.
  intros Hn. apply list_eq. intros i.
  rewrite list_lookup_fmap.
  destruct (decide (i < n)%nat) as [Hi|Hi].
  - rewrite lookup_seq_lt, take_drop_lookup by done. cbn.
    rewrite list_lookup_total_alt.
    by destruct (lookup_lt_is_Some_2 l (src + i) ltac:(lia)) as [x ->].
  - rewrite lookup_seq_ge, lookup_take_ge by lia. done.
Qed.

Lemma copy_loop body blk data dst src n :
  (forall b i,
     body b i
     = Buffer.set b (Z.of_nat (dst + i)) (Buffer.get data (Z.of_nat (src + i)))) ->
  (dst + n <= length blk)%nat -> (src + n <= length data)%nat ->
  JS.for_loop (Z.of_nat n) body blk
  = take dst blk ++ take n (drop src data) ++ drop (dst + n) blk.
Proof.
  intros Hbody Hd Hs. unfold JS.for_loop. rewrite Nat2Z.id.
  rewrite (foldl_ext _ (fun l i => <[(dst + i)%nat := data !!! (src + i)%nat]> l)).
  - by rewrite foldl_fill_at, map_lookup_total_seq.
  - intros a i.
    by rewrite Hbody, Buffer_set_nat, Buffer_get_nat, byte.of_Z_unsigned.
Qed.

Lemma transform_wf c chunk pos :
  wf c -> Forall Spec.word (s c) ->
  (pos + 64 <= length chunk)%nat ->
  wf (transform c chunk (Z.of_nat pos)).
Proof.
  intros Hwf Hw Hlen. rewrite transform_eq by done.
  destruct Hwf as (? & Hws & ?).
  destruct (schedule_rel chunk pos (w c) Hws Hlen) as [Hl _].
  unfold wf. cbn [s w block].
  split; [apply transform_length|]. by split.
Qed.

(** Whatever the state words were, [transform] leaves five unsigned
    32-bit words and does not touch the buffer or the counter. *)
Lemma readU32_ext buf buf' off :
  (forall i, Buffer.get buf i = Buffer.get buf' i) ->
  readU32 buf off = readU32 buf' off.
Proof. intros Hget. unfold readU32. by rewrite !Hget. Qed.

Lemma transform_ext c chunk chunk' pos :
  (forall i, Buffer.get chunk i = Buffer.get chunk' i) ->
  transform c chunk pos = transform c chunk' pos.
Proof.
  intros Hget. unfold transform.
  replace (schedule_load chunk pos (w c)) with (schedule_load chunk' pos (w c));
    [reflexivity|].
  unfold schedule_load, JS.for_loop. apply foldl_ext.
  intros ws i. f_equal. by apply readU32_ext.
Qed.

Lemma transform_shape c chunk pos :
  length (s c) = 5%nat ->
  length (s (transform c chunk pos)) = 5%nat
  /\ Forall Spec.word (s (transform c chunk pos))
  /\ length (w (transform c chunk pos)) = length (w c)
  /\ block (transform c chunk pos) = block c
  /\ bytes (transform c chunk pos) = bytes c.
Proof.
  intros Hs. unfold transform.
  destruct (list_length_5 _ Hs) as (h0 & h1 & h2 & h3 & h4 & ->).
  destruct (JS.for_loop _ _ _) as [[[[a b] c'] d] e].
  cbn [s w block bytes list_insert insert lookup_total list_lookup_total].
  rewrite !shr_0, schedule_length.
  repeat split; try done.
  unfold Spec.word. repeat constructor; apply Z.mod_pos_bound; lia.
Qed.

#[global] Opaque Spec.transform transform.

(** ** Folding the transform over blocks *)

Lemma hash_blocks_inv n : forall h l,
  length h = 5%nat -> Forall Spec.word h ->
  length (hash_blocks n h l) = 5%nat /\ Forall Spec.word (hash_blocks n h l).
Proof.
  induction n as [|n IH]; intros h l Hl Hw; [done|].
  cbn [hash_blocks]. apply IH; [apply transform_length | apply transform_words].
Qed.

Lemma hash_blocks_take n : forall h l m,
  (64 * n <= m)%nat -> hash_blocks n h (take m l) = hash_blocks n h l.
Proof.
  induction n as [|n IH]; intros h l m Hm; [done|].
  cbn [hash_blocks].
  rewrite take_take, Nat.min_l by lia.
  rewrite skipn_firstn_comm. apply IH. lia.
Qed.

Lemma hash_blocks_app_l n h l1 l2 :
  (64 * n <= length l1)%nat ->
  hash_blocks n h (l1 ++ l2) = hash_blocks n h l1.
Proof.
  intros Hn.
  rewrite <- (hash_blocks_take n h (l1 ++ l2) (length l1)) by done.
  by rewrite take_app_length.
Qed.

Lemma hash_blocks_add n : forall m h l,
  hash_blocks (n + m) h l = hash_blocks m (hash_blocks n h l) (drop (64 * n) l).
Proof.
  induction n as [|n IH]; intros m h l; [done|].
  cbn [hash_blocks Nat.add]. rewrite IH, drop_drop.
  by replace (64 + 64 * n)%nat with (64 * S n)%nat by lia.
Qed.

(** ** The [while] loop of [_update] *)

Lemma update_blocks_step c data pos len :
  update_blocks c data pos len
  = if decide (64 <= len)
    then update_blocks (transform c data pos) data (pos + 64) (len - 64)
    else (c, pos, len).
Proof.
  rewrite update_blocks_equation_1.
  destruct (Z_le_gt_dec 64 len); case_decide; try lia; reflexivity.
Qed.

Lemma update_blocks_sim n : forall c data pos len,
  wf c -> Forall Spec.word (s c) ->
  (pos + len <= length data)%nat -> (len / 64 = n)%nat ->
  exists c',
    update_blocks c data (Z.of_nat pos) (Z.of_nat len)
    = (c', Z.of_nat (pos + 64 * n), Z.of_nat (len mod 64))
    /\ wf c' /\ s c' = hash_blocks n (s c) (drop pos data)
    /\ block c' = block c /\ bytes c' = bytes c.
Proof.
  induction n as [|n IH]; intros c data pos len Hwf Hw Hlen Hn.
  - rewrite update_blocks_step. case_decide; [elia|].
    exists c. repeat split; try done; try apply Hwf.
    do 2 f_equal; elia.
  - rewrite update_blocks_step. case_decide; [|elia].
    pose proof (transform_wf c data pos Hwf Hw ltac:(lia)) as Hwf1.
    pose proof (transform_eq c data pos Hwf Hw ltac:(lia)) as Heq1.
    set (c1 := transform c data (Z.of_nat pos)) in *.
    replace (Z.of_nat pos + 64) with (Z.of_nat (pos + 64)) by lia.
    replace (Z.of_nat len - 64) with (Z.of_nat (len - 64)) by lia.
    destruct (IH c1 data (pos + 64)%nat (len - 64)%nat)
      as (c' & Heq & Hwf' & Hs' & Hb' & Hn'); try done.
    + rewrite Heq1. cbn [s]. apply transform_words.
    + lia.
    + elia.
    + exists c'. rewrite Heq. split; [do 2 f_equal; elia|].
      split; [done|].
      rewrite Hs', Hb', Hn', Heq1. cbn [hash_blocks s block bytes].
      by rewrite drop_drop.
Qed.

(** ** Absorbing bytes *)

Lemma absorb_short h l : (length l < 64)%nat -> absorb h l = h /\ leftover l = l.
Proof.
  intros Hl. unfold absorb, leftover.
  by rewrite Nat.div_small.
Qed.

Lemma absorb_block h b r :
  length b = 64%nat ->
  absorb h (b ++ r) = absorb (Spec.transform h b) r
  /\ leftover (b ++ r) = leftover r.
Proof.
  intros Hb. unfold absorb, leftover.
  rewrite length_app, Hb.
  replace ((64 + length r) / 64)%nat with (S (length r / 64)) by elia.
  cbn [hash_blocks].
  rewrite take_app_length', drop_app_length' by done.
  split; [done|].
  replace (64 * S (length r / 64))%nat with (64 + 64 * (length r / 64))%nat by lia.
  by rewrite <- drop_drop, drop_app_length'.
Qed.

Lemma take_add_app {A} (l : list A) a m :
  take (a + m) l = take a l ++ take m (drop a l).
Proof.
  revert l. induction a as [|a IH]; intros [|x l]; cbn;
    rewrite ?take_nil; try done.
  f_equal. apply IH.
Qed.

Lemma take_split {A} (l : list A) a n :
  (a <= n)%nat -> take n l = take a l ++ take (n - a) (drop a l).
Proof.
  intros Ha. rewrite <- take_add_app. f_equal. lia.
Qed.

Ltac copy_side :=
  first [ lia | elia | by (intros; repeat (f_equal; try lia; try elia)) ].

Lemma update_rest_sim c data pos len :
  wf c -> Forall Spec.word (s c) -> (pos + len <= length data)%nat ->
  let c' := update_rest c data (Z.of_nat pos) (Z.of_nat len) in
  let r := take len (drop pos data) in
  wf c' /\ s c' = absorb (s c) r /\ bytes c' = bytes c
  /\ take (len mod 64) (block c') = leftover r.
Proof.
  intros Hwf Hw Hlen. cbn zeta. unfold update_rest.
  destruct (update_blocks_sim (len / 64) c data pos len)
    as (c1 & -> & Hwf1 & Hs1 & Hb1 & Hn1); try done.
  destruct Hwf1 as (Hl1 & Hl2 & Hl3).
  assert (length (take len (drop pos data)) = len) as Hr
    by (rewrite length_take, length_drop; lia).
  rewrite (copy_loop _ _ data 0 (pos + 64 * (len / 64)))
    by copy_side.
  unfold set_block, wf. cbn [Nat.add s w block bytes].
  rewrite take_0, app_nil_l.
  repeat split; try done.
  - rewrite length_app, length_take, !length_drop. elia.
  - unfold absorb. rewrite Hr, Hs1.
    symmetry. apply hash_blocks_take. elia.
  - rewrite take_app_length'
      by (rewrite length_take, length_drop; elia).
    unfold leftover. rewrite Hr, skipn_firstn_comm, drop_drop.
    f_equal. elia.
Qed.

(** ** [_update] *)

Lemma band_63 x : JS.band x 0x3f = x mod 64.
Proof.
  unfold JS.band. rewrite (ToInt32_small 0x3f) by lia.
  change 0x3f with (Z.ones 6). rewrite Z.land_ones by lia.
  rewrite (ToInt32_small (_ mod _)) by elia.
  unfold JS.ToInt32. elia.
Qed.

Lemma _update_sim c data len :
  inv c -> (len <= length data)%nat -> bytes c + Z.of_nat len <= 2 ^ 53 ->
  let c' := _update c data (Z.of_nat len) in
  let l := pending c ++ take len data in
  inv c' /\ bytes c' = bytes c + Z.of_nat len
  /\ s c' = absorb (s c) l /\ pending c' = leftover l.
Proof.
  intros ((Hs & Hw & Hb) & Hwords & Hn) Hlen Hmax. cbn zeta.
  remember (Z.to_nat (bytes c mod 64)) as szn eqn:Hdef.
  assert (bytes c mod 64 = Z.of_nat szn) as Hsz by elia.
  assert (szn < 64)%nat as Hszn by elia.
  assert (length (pending c) = szn) as Hpend
    by (unfold pending; rewrite length_take, <- Hdef; lia).
  remember (_update c data (Z.of_nat len)) as c' eqn:Hc'.
  unfold _update in Hc'. rewrite band_63, add_exact, Hsz in Hc' by lia.
  cbn [block set_bytes] in Hc'.
  destruct (Z.ltb_spec 0 (Z.of_nat szn)) as [Hpos|Hzero].
  - destruct (Z.ltb_spec (Z.of_nat len) (64 - Z.of_nat szn)) as [Hshort|Hfill].
    + (* the input fits into the buffer *)
      rewrite (copy_loop _ _ data szn 0 len) in Hc'
        by copy_side.
      destruct (Z.ltb_spec (Z.of_nat szn + Z.of_nat len) 64); [|lia].
      destruct (absorb_short (s c) (pending c ++ take len data)) as [-> ->].
      { rewrite length_app, length_take. lia. }
      subst c'.
      unfold inv, wf, pending, set_block, set_bytes. cbn [s w block bytes drop].
      rewrite <- Hdef.
      repeat split; try done; try lia.
      * rewrite drop_0, !length_app, !length_take, length_drop. lia.
      * rewrite drop_0, app_assoc. apply take_app_length'.
        rewrite length_app, !length_take. elia.
    + (* the buffer fills up and is compressed *)
      replace (64 - Z.of_nat szn) with (Z.of_nat (64 - szn)) in Hc' by lia.
      rewrite (copy_loop _ _ data szn 0 (64 - szn)) in Hc'
        by copy_side.
      destruct (Z.ltb_spec (Z.of_nat szn + Z.of_nat (64 - szn)) 64); [lia|].
      replace (0 + Z.of_nat (64 - szn)) with (Z.of_nat (64 - szn)) in Hc' by lia.
      replace (Z.of_nat len - Z.of_nat (64 - szn))
        with (Z.of_nat (len - (64 - szn))) in Hc' by lia.
      rewrite drop_0 in Hc'.
      rewrite (drop_ge (block c)), app_nil_r in Hc' by lia.
      replace (take szn (block c)) with (pending c) in Hc'
        by (unfold pending; by rewrite <- Hdef).
      set (b := pending c ++ take (64 - szn) data) in *.
      assert (length b = 64%nat) as Hb64
        by (unfold b; rewrite length_app, length_take; lia).
      set (c1 := set_block _ b) in *.
      assert (wf c1) as Hwf1 by done.
      change 0 with (Z.of_nat 0) in Hc'.
      pose proof (transform_wf c1 b 0 Hwf1 Hwords ltac:(lia)) as Hwf2.
      pose proof (transform_eq c1 b 0 Hwf1 Hwords ltac:(lia)) as Heq2.
      cbn [block c1 set_block] in Hc'.
      set (c2 := transform c1 b (Z.of_nat 0)) in *.
      rewrite drop_0, take_ge in Heq2 by lia.
      destruct (update_rest_sim c2 data (64 - szn) (len - (64 - szn)))
        as (Hwf3 & Hs3 & Hn3 & Hb3); try done; try lia.
      { rewrite Heq2. cbn [s]. apply transform_words. }
      rewrite <- Hc' in *. clear Hc'.
      destruct (absorb_block (s c) b
                  (take (len - (64 - szn)) (drop (64 - szn) data)) Hb64)
        as [Ha Hl].
      rewrite (take_split data (64 - szn) len) by lia.
      rewrite app_assoc. fold b. rewrite Ha, Hl.
      unfold inv, pending. rewrite Hs3, Hn3, Heq2.
      cbn [s bytes c1 set_block set_bytes].
      repeat split; try apply Hwf3; try lia.
      * destruct (hash_blocks_inv
                    (length (take (len - (64 - szn)) (drop (64 - szn) data)) / 64)
                    (Spec.transform (s c) b)
                    (take (len - (64 - szn)) (drop (64 - szn) data)))
          as [_ H']; [apply transform_length|apply transform_words|exact H'].
      * rewrite <- Hb3. f_equal. elia.
  - (* nothing buffered *)
    assert (szn = 0%nat) as Hz by lia.
    assert (pending c = []) as -> by (apply nil_length_inv; lia).
    cbn [app].
    set (c1 := set_bytes c _) in *.
    destruct (update_rest_sim c1 data 0 len) as (Hwf3 & Hs3 & Hn3 & Hb3);
      try done.
    change (Z.of_nat 0) with 0 in *. rewrite drop_0 in *.
    rewrite <- Hc' in *. clear Hc'.
    unfold inv, pending. rewrite Hs3, Hn3. cbn [s bytes c1 set_bytes].
    repeat split; try apply Hwf3; try lia.
    + destruct (hash_blocks_inv (length (take len data) / 64) (s c) (take len data))
        as [_ H']; done.
    + rewrite <- Hb3. f_equal. elia.
Qed.

(** ** Streaming *)

Lemma div64_split a b :
  ((a + b) / 64 = a / 64 + (a - 64 * (a / 64) + b) / 64)%nat.
Proof. elia. Qed.

Lemma absorb_app h l1 l2 :
  absorb (absorb h l1) (leftover l1 ++ l2) = absorb h (l1 ++ l2)
  /\ leftover (leftover l1 ++ l2) = leftover (l1 ++ l2).
Proof.
  unfold absorb, leftover.
  assert (64 * (length l1 / 64) <= length l1)%nat as Hk by elia.
  rewrite !length_app, length_drop, (div64_split (length l1) (length l2)).
  rewrite hash_blocks_add, (hash_blocks_app_l _ h l1 l2), drop_app_le by done.
  split; [done|].
  rewrite Nat.mul_add_distr_l, <- drop_drop.
  by rewrite (drop_app_le l1) by done.
Qed.

(** ** Writing a big-endian word *)

Lemma byte_of_Z_mod a b : a mod 256 = b mod 256 -> byte.of_Z a = byte.of_Z b.
Proof.
  intros H. apply byte.unsigned_inj.
  rewrite !byte.unsigned_of_Z. unfold byte.wrap. exact H.
Qed.

Lemma writeU32_bytes v :
  [ byte.of_Z (JS.shr v 24);
    byte.of_Z (JS.band (JS.sar v 16) 0xff);
    byte.of_Z (JS.band (JS.sar v 8) 0xff);
    byte.of_Z (JS.band v 0xff) ]
  = be32 v.
Proof.
  unfold be32, JS.band, JS.sar, JS.shr.
  rewrite !shift_count, !Z.shiftr_div_pow2 by lia.
  rewrite (ToInt32_small 0xff) by lia.
  change 0xff with (Z.ones 8). rewrite !Z.land_ones by lia.
  pose proof (ToInt32_range v).
  rewrite (ToInt32_small (_ / 2 ^ 16)), (ToInt32_small (_ / 2 ^ 8)) by elia.
  rewrite !(ToInt32_small (_ mod 2 ^ 8)) by elia.
  unfold JS.ToInt32, JS.ToUint32.
  repeat (apply (f_equal2 cons); [apply byte_of_Z_mod; elia|]).
  reflexivity.
Qed.

Lemma writeU32_eq buf v off :
  (off + 4 <= length buf)%nat ->
  writeU32 buf v (Z.of_nat off) = take off buf ++ be32 v ++ drop (off + 4) buf.
Proof.
  intros Hlen. unfold writeU32.
  replace (Z.of_nat off + 1) with (Z.of_nat (off + 1)) by lia.
  replace (Z.of_nat off + 2) with (Z.of_nat (off + 2)) by lia.
  replace (Z.of_nat off + 3) with (Z.of_nat (off + 3)) by lia.
  rewrite !Buffer_set_nat, <- writeU32_bytes.
  apply list_eq. intros i.
  destruct (decide (i < off)%nat); [|destruct (decide (off + 4 <= i)%nat)].
  - rewrite !list_lookup_insert_ne by lia.
    by rewrite lookup_app_l, lookup_take_lt by (rewrite ?length_take; lia).
  - rewrite !list_lookup_insert_ne by lia.
    rewrite lookup_app_r by (rewrite length_take; lia).
    rewrite length_take, Nat.min_l by lia.
    rewrite lookup_app_r by (cbn; lia).
    rewrite lookup_drop. f_equal. cbn. lia.
  - rewrite lookup_app_r by (rewrite length_take; lia).
    rewrite length_take, Nat.min_l by lia.
    assert (i = off \/ i = off + 1 \/ i = off + 2 \/ i = off + 3)%nat
      as [-> | [-> | [-> | ->]]] by lia.
    + rewrite !list_lookup_insert_ne by lia.
      rewrite list_lookup_insert_eq by lia.
      by rewrite Nat.sub_diag.
    + rewrite !list_lookup_insert_ne by lia.
      rewrite list_lookup_insert_eq by (rewrite ?length_insert; lia).
      by replace (off + 1 - off)%nat with 1%nat by lia.
    + rewrite !list_lookup_insert_ne by lia.
      rewrite list_lookup_insert_eq by (rewrite ?length_insert; lia).
      by replace (off + 2 - off)%nat with 2%nat by lia.
    + rewrite list_lookup_insert_eq by (rewrite ?length_insert; lia).
      by replace (off + 3 - off)%nat with 3%nat by lia.
Qed.

(** ** [_final] *)

Lemma PADDING_eq : PADDING = Byte.x80 :: replicate 63 Byte.x00.
Proof. reflexivity. Qed.

Lemma length_be32 x : length (be32 x) = 4%nat.
Proof. reflexivity. Qed.

Lemma length_be64 x : length (be64 x) = 8%nat.
Proof. reflexivity. Qed.

Lemma list_length_8 {A} (l : list A) :
  length l = 8%nat -> exists a b c d e f g h, l = [a; b; c; d; e; f; g; h].
Proof.
  do 9 (destruct l as [|? l]; try discriminate). eauto 10.
Qed.

Lemma DESC_written desc n :
  length desc = 8%nat -> 0 <= n ->
  writeU32 (writeU32 desc (Z.quot n 0x100000000) 0) n 4 = be64 n.
Proof.
  intros Hlen Hn.
  destruct (list_length_8 _ Hlen) as (d0 & d1 & d2 & d3 & d4 & d5 & d6 & d7 & ->).
  change 0 with (Z.of_nat 0). change 4 with (Z.of_nat 4).
  rewrite Z.quot_div_nonneg by lia.
  rewrite (writeU32_eq _ _ 0) by (cbn; lia).
  rewrite (writeU32_eq _ _ 4) by (cbn; lia).
  reflexivity.
Qed.

Lemma serialize_loop out c :
  length out = 20%nat -> length (s c) = 5%nat ->
  JS.for_loop 5
    (fun '(out, c) i =>
       (writeU32 out (s c !!! i) (Z.of_nat i * 4),
        set_s c (<[i := 0]> (s c))))
    (out, c)
  = (serialize (s c), set_s c [0; 0; 0; 0; 0]).
Proof.
  intros Hout Hs. destruct c as [st ws blk n]. cbn [s] in *.
  destruct (list_length_5 _ Hs) as (h0 & h1 & h2 & h3 & h4 & ->).
  do 21 (destruct out as [|? out]; try discriminate).
  unfold JS.for_loop. change (Z.to_nat 5) with 5%nat.
  cbn [seq foldl set_s s w block bytes list_insert insert
         lookup_total list_lookup_total].
  change (Z.of_nat 0 * 4) with (Z.of_nat 0).
  change (Z.of_nat 1 * 4) with (Z.of_nat 4).
  change (Z.of_nat 2 * 4) with (Z.of_nat 8).
  change (Z.of_nat 3 * 4) with (Z.of_nat 12).
  change (Z.of_nat 4 * 4) with (Z.of_nat 16).
  rewrite (writeU32_eq _ _ 0) by (cbn; lia). cbn [firstn skipn app be32 Nat.add].
  rewrite (writeU32_eq _ _ 4) by (cbn; lia). cbn [firstn skipn app be32 Nat.add].
  rewrite (writeU32_eq _ _ 8) by (cbn; lia). cbn [firstn skipn app be32 Nat.add].
  rewrite (writeU32_eq _ _ 12) by (cbn; lia). cbn [firstn skipn app be32 Nat.add].
  rewrite (writeU32_eq _ _ 16) by (cbn; lia). cbn [firstn skipn app be32 Nat.add].
  reflexivity.
Qed.

Lemma padding_length n :
  0 <= n -> Z.of_nat (length (padding n)) = 1 + (55 - n) mod 64 + 8.
Proof.
  intros. unfold padding, pad_zeros. cbn [length].
  rewrite length_app, length_replicate, length_be64. lia.
Qed.

Lemma _final_sim out c desc :
  inv c -> length out = 20%nat -> length desc = 8%nat ->
  bytes c + 72 <= 2 ^ 53 ->
  exists c',
    _final out c desc
    = (serialize (absorb (s c) (pending c ++ padding (bytes c))),
       c', be64 (bytes c * 8))
    /\ wf c'
    /\ leftover (pending c ++ padding (bytes c)) = [].
Proof.
  intros Hinv Hout Hdesc Hmax.
  pose proof Hinv as (Hwf & Hwords & Hn).
  unfold _final.
  rewrite mul_8_exact by lia.
  rewrite DESC_written by (done || lia).
  replace (1 + Z.rem (119 - Z.rem (bytes c) 64) 64)
    with (Z.of_nat (S (pad_zeros (bytes c)))) by (unfold pad_zeros; elia).
  assert (pad_zeros (bytes c) < 64)%nat as Hpz by (unfold pad_zeros; elia).
  destruct (_update_sim c PADDING (S (pad_zeros (bytes c))))
    as (Hinv1 & Hn1 & Hs1 & Hp1);
    [done | change (length PADDING) with 64%nat; lia | lia |].
  set (c1 := _update c PADDING _) in *.
  change 8 with (Z.of_nat 8).
  destruct (_update_sim c1 (be64 (bytes c * 8)) 8)
    as (Hinv2 & Hn2 & Hs2 & Hp2); [done | done | lia |].
  set (c2 := _update c1 _ _) in *.
  rewrite (take_ge (be64 _)) in * by done.
  assert (take (S (pad_zeros (bytes c))) PADDING
          = Byte.x80 :: replicate (pad_zeros (bytes c)) Byte.x00) as Htake.
  { rewrite PADDING_eq. cbn [take firstn].
    by rewrite take_replicate, Nat.min_l by lia. }
  rewrite Htake in *.
  destruct (absorb_app (s c)
              (pending c ++ Byte.x80 :: replicate (pad_zeros (bytes c)) Byte.x00)
              (be64 (bytes c * 8))) as [Ha Hl].
  rewrite <- Hs1, <- Hp1, <- Hs2, <- Hp2 in *.
  rewrite <- app_assoc in Ha, Hl. cbn [app] in Ha, Hl.
  change (Byte.x80 :: replicate (pad_zeros (bytes c)) Byte.x00 ++ be64 (bytes c * 8))
    with (padding (bytes c)) in *.
  destruct Hinv2 as (Hwf2 & Hwords2 & _).
  rewrite serialize_loop by (done || apply Hwf2).
  eexists. split; [by rewrite Ha|].
  split; [by destruct Hwf2 as (? & ? & ?)|].
  rewrite <- Hl. unfold pending.
  rewrite Hn2, Hn1.
  replace (Z.to_nat ((bytes c + Z.of_nat (S (pad_zeros (bytes c))) + Z.of_nat 8) mod 64))
    with 0%nat by (unfold pad_zeros; elia).
  apply take_0.
Qed.

(** ** Whole messages *)

Lemma init_inv c :
  wf c ->
  inv (init c) /\ s (init c) = IV /\ bytes (init c) = 0 /\ pending (init c) = [].
Proof.
  intros (Hs & Hw & Hb). unfold init, inv, wf, pending, set_bytes, set_s.
  cbn [s w block bytes].
  destruct (list_length_5 _ Hs) as (h0 & h1 & h2 & h3 & h4 & ->).
  cbn [list_insert insert]. repeat split; try done.
  unfold IV, Spec.word. repeat constructor; lia.
Qed.

Lemma pending_short c : (length (pending c) < 64)%nat.
Proof. unfold pending. rewrite length_take. elia. Qed.

Lemma feed_all_cons x chunks c :
  feed_all (x :: chunks) c
  = feed_all chunks (_update c x (Z.of_nat (length x))).
Proof. reflexivity. Qed.

Lemma feed_all_sim chunks : forall c,
  inv c -> bytes c + Z.of_nat (length (concat chunks)) <= 2 ^ 53 ->
  let c' := feed_all chunks c in
  let l := pending c ++ concat chunks in
  inv c' /\ bytes c' = bytes c + Z.of_nat (length (concat chunks))
  /\ s c' = absorb (s c) l /\ pending c' = leftover l.
Proof.
  induction chunks as [|x chunks IH]; intros c Hinv Hmax; cbn zeta.
  - cbn [feed_all foldl concat length]. rewrite app_nil_r.
    destruct (absorb_short (s c) (pending c) (pending_short c)) as [-> ->].
    repeat split; try done; try apply Hinv. lia.
  - cbn [concat] in *. rewrite length_app in Hmax.
    rewrite feed_all_cons.
    destruct (_update_sim c x (length x)) as (Hinv1 & Hn1 & Hs1 & Hp1);
      [done | done | lia |].
    rewrite take_ge in Hs1, Hp1 by done.
    set (c1 := _update c x _) in *.
    destruct (IH c1) as (Hinv2 & Hn2 & Hs2 & Hp2); [done | lia |].
    destruct (absorb_app (s c) (pending c ++ x) (concat chunks)) as [Ha Hl].
    rewrite <- Hs1, <- Hp1, <- Hs2, <- Hp2, <- app_assoc in *.
    repeat split; try done; try apply Hinv2.
    rewrite Hn2, Hn1, length_app. lia.
Qed.

Lemma final_feed_all mem c desc chunks :
  wf c -> length desc = 8%nat ->
  Z.of_nat (length (concat chunks)) + 72 <= 2 ^ 53 ->
  exists c',
    final mem (feed_all chunks (init c)) desc
    = (sha1 (concat chunks), c', be64 (Z.of_nat (length (concat chunks)) * 8))
    /\ wf c'.
Proof.
  intros Hwf Hdesc Hmax.
  destruct (init_inv c Hwf) as (Hinv0 & Hs0 & Hn0 & Hp0).
  destruct (feed_all_sim chunks (init c)) as (Hinv1 & Hn1 & Hs1 & Hp1);
    [done | lia |].
  rewrite Hs0, Hn0, Hp0 in *. cbn [app] in *. rewrite Z.add_0_l in Hn1.
  set (c1 := feed_all chunks (init c)) in *.
  destruct (_final_sim (Buffer.allocUnsafe 20 mem) c1 desc)
    as (c' & Heq & Hwf' & _); [done | done | done | lia |].
  exists c'. split; [|done].
  unfold final. rewrite Heq, Hs1, Hp1, Hn1.
  destruct (absorb_app IV (concat chunks)
              (padding (Z.of_nat (length (concat chunks))))) as [-> _].
  reflexivity.
Qed.

Lemma feed_all_single x c : feed_all [x] c = snd (update (JS.VBuffer x) c).
Proof. reflexivity. Qed.

Lemma final_update mem c desc msg :
  wf c -> length desc = 8%nat ->
  Z.of_nat (length msg) + 72 <= 2 ^ 53 ->
  exists c',
    final mem (snd (update (JS.VBuffer msg) (init c))) desc
    = (sha1 msg, c', be64 (Z.of_nat (length msg) * 8))
    /\ wf c'.
Proof.
  intros Hwf Hdesc Hmax. rewrite <- feed_all_single.
  destruct (final_feed_all mem c desc [msg]) as (c' & Heq & Hwf'); try done.
  - cbn [concat]. by rewrite app_nil_r.
  - cbn [concat] in Heq. rewrite app_nil_r in Heq. eauto.
Qed.

(** ** Contexts and module states the statements range over *)

Lemma constructor_wf s0 w0 mem : wf (constructor s0 w0 mem).
Proof. repeat split. Qed.

Lemma ctx0_wf : wf ctx0.
Proof. repeat split. Qed.

Lemma init_ctx0_inv : inv (init ctx0).
Proof. apply init_inv, ctx0_wf. Qed.

Lemma module0_wf : wf_module module0.
Proof. repeat split. Qed.

Lemma module_load_wf desc_mem s0 w0 mem : wf_module (module_load desc_mem s0 w0 mem).
Proof. repeat split. Qed.

Lemma update_empty c :
  0 <= bytes c <= 2 ^ 53 -> update (JS.VBuffer []) c = (JS.Normal tt, c).
Proof.
  intros Hn. cbn [update length]. f_equal.
  unfold _update. change (Z.of_nat 0) with 0.
  rewrite band_63, add_exact, Z.add_0_r by lia.
  assert (0 <= bytes c mod 64 < 64) by elia.
  destruct c as [st ws blk n]. cbn [bytes] in *.
  unfold set_bytes, set_block, update_rest. cbn [s w block bytes].
  destruct (Z.ltb_spec 0 (n mod 64)).
  - destruct (Z.ltb_spec 0 (64 - n mod 64)); [|lia].
    destruct (Z.ltb_spec (n mod 64 + 0) 64); [|lia].
    reflexivity.
  - rewrite update_blocks_step. case_decide; [lia|]. reflexivity.
Qed.

Lemma leftover_length (l : list byte) :
  length (leftover l) = (length l mod 64)%nat.
Proof. unfold leftover. rewrite length_drop. elia. Qed.

Lemma absorb_one h l : length l = 64%nat -> absorb h l = Spec.transform h l.
Proof.
  intros Hl. unfold absorb. rewrite Hl. change (64 / 64)%nat with 1%nat.
  cbn [hash_blocks]. by rewrite take_ge by lia.
Qed.

Lemma absorb_two h l :
  length l = 128%nat ->
  absorb h l = Spec.transform (Spec.transform h (take 64 l)) (drop 64 l).
Proof.
  intros Hl. unfold absorb. rewrite Hl. change (128 / 64)%nat with 2%nat.
  cbn [hash_blocks].
  by rewrite (take_ge (drop 64 l)) by (rewrite length_drop; lia).
Qed.

Lemma module_digest mem m msg :
  wf_module m -> Z.of_nat (length msg) + 72 <= 2 ^ 53 ->
  exists c',
    digest mem (JS.VBuffer msg) m
    = (JS.Normal (sha1 msg),
       {| DESC := be64 (Z.of_nat (length msg) * 8); ctx := c' |})
    /\ wf c'.
Proof.
  intros (Hwf & Hdesc) Hmax. unfold digest.
  destruct (final_update mem (ctx m) (DESC m) msg) as (c' & Heq & Hwf');
    [done..|].
  cbn [update snd] in *. rewrite Heq. eauto.
Qed.

Lemma module_root mem m a b :
  wf_module m -> length a = 20%nat -> length b = 20%nat ->
  exists c',
    root mem (JS.VBuffer a) (JS.VBuffer b) m
    = (JS.Normal (sha1 (a ++ b)),
       {| DESC := be64 (Z.of_nat (length (a ++ b)) * 8); ctx := c' |})
    /\ wf c'.
Proof.
  intros (Hwf & Hdesc) Ha Hb. unfold root. rewrite Ha, Hb.
  cbn [Nat.eqb negb update snd].
  destruct (final_feed_all mem (ctx m) (DESC m) [a; b]) as (c' & Heq & Hwf');
    [done | done | |].
  { cbn [concat]. rewrite !length_app, Ha, Hb. cbn. lia. }
  cbn [concat] in Heq. rewrite app_nil_r in Heq.
  rewrite !feed_all_cons in Heq. cbn [feed_all foldl] in Heq.
  rewrite Heq. eauto.
Qed.

(** Every call of [digest] leaves the module in a state the next call can
    start from. *)
Lemma digest_preserves_wf mem data m :
  wf_module m ->
  (forall b, data = JS.VBuffer b -> Z.of_nat (length b) + 72 <= 2 ^ 53) ->
  wf_module (snd (digest mem data m)).
Proof.
  intros Hm Hmax.
  assert (wf_module {| DESC := DESC m; ctx := init (ctx m) |}) as Hthrow.
  { destruct Hm as [Hwf Hd]. split; [|done].
    apply (init_inv (ctx m) Hwf). }
  destruct data as [b| | | | | |]; try exact Hthrow.
  destruct (module_digest mem m b Hm) as (c' & -> & Hwf'); [by apply Hmax|].
  by split.
Qed.

(** * The statements of the specification *)

(** ** C1: the block transform *)

(** C1.  For every 64-byte block read at [pos], [transform] leaves in the
    state exactly the words the specified algorithm computes: sixteen
    big-endian words loaded into slots 0-15, slots 16-79 expanded with
    the rotate-xor recurrence, eighty rounds with the round function and
    constant chosen by the range of [i], and the five working variables
    added back modulo 2^32.  The schedule the context keeps holds the
    specified words as 32-bit patterns. *)
Theorem transform_implements_spec c chunk pos :
  wf c -> Forall Spec.word (s c) ->
  0 <= pos -> pos + 64 <= Z.of_nat (length chunk) ->
  let blk := take 64 (drop (Z.to_nat pos) chunk) in
  let c' := transform c chunk pos in
  s c' = Spec.transform (s c) blk
  /\ length (w c') = 80%nat
  /\ (forall i, (i < 80)%nat -> w c' !!! i mod 2 ^ 32 = Spec.schedule blk !!! i)
  /\ block c' = block c /\ bytes c' = bytes c.
Proof.
  intros Hwf Hwords Hpos Hlen. cbn zeta.
  destruct (Z_of_nat_complete pos Hpos) as [n ->]. rewrite Nat2Z.id.
  rewrite transform_eq by (done || lia). cbn [s w block bytes].
  destruct Hwf as (_ & Hw & _).
  destruct (schedule_rel chunk n (w c) Hw ltac:(lia)) as [Hl Hrel].
  done.
Qed.

Lemma transform_implements_spec_witness :
  let chunk := replicate 70 Byte.x61 in
  wf (init ctx0) /\ Forall Spec.word (s (init ctx0))
  /\ s (transform (init ctx0) chunk 3)
     = Spec.transform (s (init ctx0)) (take 64 (drop 3 chunk)).
Proof.
  cbn zeta.
  split; [apply init_ctx0_inv|]. split; [apply init_ctx0_inv|].
  apply (transform_implements_spec (init ctx0) (replicate 70 Byte.x61) 3);
    [apply init_ctx0_inv | apply init_ctx0_inv | lia | cbn; lia].
Defined.

(** ** C2: padding and serialization *)

(** C2.  For a message of [n] bytes fed to a context, [final] compresses
    the pending bytes followed by one [0x80] byte, the least number of
    zero bytes that brings the length to 56 modulo 64, and the 8-byte
    big-endian encoding of [bytes * 8] (which is what it leaves in
    [DESC]): one block when [n mod 64] is in 0..55, two when it is in
    56..63.  The digest is the big-endian serialization of the state
    words after these blocks. *)
Theorem final_pads_and_serializes mem c0 desc msg :
  wf c0 -> length desc = 8%nat ->
  Z.of_nat (length msg) + 72 <= 2 ^ 53 ->
  let c := snd (update (JS.VBuffer msg) (init c0)) in
  let n := Z.of_nat (length msg) in
  let r := n mod 64 in
  let zeros := pad_zeros n in
  let tail :=
    pending c ++ [Byte.x80] ++ replicate zeros Byte.x00 ++ be64 (bytes c * 8) in
  let out := fst (fst (final mem c desc)) in
  bytes c = n
  /\ Z.of_nat (length (pending c)) = r
  /\ (zeros < 64)%nat
  /\ (r + 1 + Z.of_nat zeros) mod 64 = 56
  /\ snd (final mem c desc) = be64 (n * 8)
  /\ (0 <= r <= 55 ->
      length tail = 64%nat
      /\ out = serialize (Spec.transform (s c) tail))
  /\ (56 <= r <= 63 ->
      length tail = 128%nat
      /\ out
         = serialize
             (Spec.transform (Spec.transform (s c) (take 64 tail)) (drop 64 tail))).
Proof.
  intros Hwf Hdesc Hmax. cbn zeta.
  destruct (init_inv c0 Hwf) as (Hi & Hs & Hn & Hp).
  cbn [update snd].
  destruct (_update_sim (init c0) msg (length msg)) as (Hinv1 & Hn1 & Hs1 & Hp1);
    [done | done | lia |].
  set (c := _update (init c0) msg _) in *.
  rewrite Hn, Hp, take_ge in * by done. cbn [app] in *. rewrite Z.add_0_l in Hn1.
  assert (Z.of_nat (length (pending c)) = Z.of_nat (length msg) mod 64) as Hlen
    by (rewrite Hp1, leftover_length; elia).
  destruct (_final_sim (Buffer.allocUnsafe 20 mem) c desc)
    as (c' & Heq & _ & _); [done | done | done | lia |].
  unfold final. rewrite Heq. cbn [fst snd]. rewrite Hn1.
  change ([Byte.x80] ++ replicate (pad_zeros (Z.of_nat (length msg))) Byte.x00
            ++ be64 (Z.of_nat (length msg) * 8))
    with (padding (Z.of_nat (length msg))).
  assert (Z.of_nat (length (pending c ++ padding (Z.of_nat (length msg))))
          = Z.of_nat (length msg) mod 64
            + (1 + (55 - Z.of_nat (length msg)) mod 64 + 8)) as Htail
    by (rewrite length_app, Nat2Z.inj_add, Hlen, padding_length; lia).
  set (tail := pending c ++ padding (Z.of_nat (length msg))) in *.
  split; [done|]. split; [done|].
  split; [unfold pad_zeros; elia|]. split; [unfold pad_zeros; elia|].
  split; [done|].
  split; intros Hr.
  - assert (length tail = 64%nat) as Hl by elia.
    split; [exact Hl|]. by rewrite absorb_one.
  - assert (length tail = 128%nat) as Hl by elia.
    split; [exact Hl|]. by rewrite absorb_two.
Qed.

Lemma final_pads_and_serializes_witness :
  let c := snd (update (JS.VBuffer abc) (init ctx0)) in
  wf ctx0
  /\ fst (fst (final mem0 c (DESC module0)))
     = serialize
         (Spec.transform (s c)
            (pending c ++ [Byte.x80] ++ replicate 52 Byte.x00 ++ be64 24)).
Proof.
  cbn zeta. split; [exact ctx0_wf|].
  assert (Z.of_nat (length abc) + 72 <= 2 ^ 53) as Hmax by (cbn; lia).
  pose proof (final_pads_and_serializes mem0 ctx0 (DESC module0) abc
                ctx0_wf eq_refl Hmax) as H.
  cbn zeta in H. destruct H as (Hb & _ & _ & _ & _ & H & _).
  destruct H as [_ H]; [cbn; lia|].
  rewrite Hb in H. exact H.
Defined.

(** ** C3: streaming equivalence *)

(** C3.  Feeding the chunks of any partition of [X] in order and
    finalizing gives the digest that one [update] with all of [X] gives;
    the two contexts also agree on state words, byte counter and pending
    bytes before finalizing.  An empty chunk leaves the context as it
    is. *)
Theorem streaming_equivalence mem1 mem2 c1 c2 desc1 desc2 chunks :
  wf c1 -> wf c2 -> length desc1 = 8%nat -> length desc2 = 8%nat ->
  Z.of_nat (length (concat chunks)) + 72 <= 2 ^ 53 ->
  let streamed := feed_all chunks (init c1) in
  let single := snd (update (JS.VBuffer (concat chunks)) (init c2)) in
  fst (fst (final mem1 streamed desc1)) = fst (fst (final mem2 single desc2))
  /\ s streamed = s single
  /\ bytes streamed = bytes single
  /\ pending streamed = pending single
  /\ (forall c, 0 <= bytes c <= 2 ^ 53 ->
      update (JS.VBuffer []) c = (JS.Normal tt, c)).
Proof.
  intros Hwf1 Hwf2 Hd1 Hd2 Hmax. cbn zeta.
  destruct (final_feed_all mem1 c1 desc1 chunks) as (c1' & -> & _);
    [done..|].
  destruct (final_update mem2 c2 desc2 (concat chunks)) as (c2' & -> & _);
    [done..|].
  destruct (init_inv c1 Hwf1) as (Hi1 & Hs1 & Hn1 & Hp1).
  destruct (init_inv c2 Hwf2) as (Hi2 & Hs2 & Hn2 & Hp2).
  destruct (feed_all_sim chunks (init c1)) as (_ & Hb1 & Hst1 & Hpe1);
    [done | lia |].
  destruct (feed_all_sim [concat chunks] (init c2)) as (_ & Hb2 & Hst2 & Hpe2);
    [done | cbn [concat]; rewrite app_nil_r; lia |].
  rewrite feed_all_single in *. cbn [concat] in *. rewrite app_nil_r in *.
  rewrite Hb1, Hst1, Hpe1, Hb2, Hst2, Hpe2, Hs1, Hs2, Hn1, Hn2, Hp1, Hp2.
  repeat split; try done. apply update_empty.
Qed.

Lemma streaming_equivalence_witness :
  let chunks := [abc; []; replicate 70 Byte.x61; abc] in
  wf ctx0
  /\ fst (fst (final mem0 (feed_all chunks (init ctx0)) (DESC module0)))
     = fst (fst (final mem0
                   (snd (update (JS.VBuffer (concat chunks)) (init ctx0)))
                   (DESC module0))).
Proof.
  cbn zeta. split; [exact ctx0_wf|].
  assert (Z.of_nat (length (concat [abc; []; replicate 70 Byte.x61; abc])) + 72
          <= 2 ^ 53) as Hmax by (cbn; lia).
  pose proof (streaming_equivalence mem0 mem0 ctx0 ctx0 (DESC module0)
                (DESC module0) [abc; []; replicate 70 Byte.x61; abc]
                ctx0_wf ctx0_wf eq_refl eq_refl Hmax) as H.
  cbn zeta in H. destruct H as [H _]. exact H.
Defined.

(** ** C4, C5: known answers *)

(** C4.  From any state of the module, the one-shot digest of the empty
    byte sequence is [da39a3ee5e6b4b0d3255bfef95601890afd80709]. *)
Theorem digest_empty mem m :
  wf_module m ->
  fst (digest mem (JS.VBuffer []) m)
  = JS.Normal
      [ Byte.xda; Byte.x39; Byte.xa3; Byte.xee; Byte.x5e; Byte.x6b; Byte.x4b;
        Byte.x0d; Byte.x32; Byte.x55; Byte.xbf; Byte.xef; Byte.x95; Byte.x60;
        Byte.x18; Byte.x90; Byte.xaf; Byte.xd8; Byte.x07; Byte.x09 ]
  /\ hex_of_completion (fst (digest mem (JS.VBuffer []) m))
     = Some "da39a3ee5e6b4b0d3255bfef95601890afd80709"%string.
Proof.
  intros Hm.
  destruct (module_digest mem m [] Hm) as (c' & -> & _); [cbn; lia|].
  cbn [fst hex_of_completion].
  assert (sha1 [] =
            [ Byte.xda; Byte.x39; Byte.xa3; Byte.xee; Byte.x5e; Byte.x6b; Byte.x4b;
              Byte.x0d; Byte.x32; Byte.x55; Byte.xbf; Byte.xef; Byte.x95; Byte.x60;
              Byte.x18; Byte.x90; Byte.xaf; Byte.xd8; Byte.x07; Byte.x09 ]) as ->
    by (vm_compute; reflexivity).
  split; [reflexivity|]. vm_compute. reflexivity.
Qed.

Lemma digest_empty_witness :
  wf_module module0
  /\ hex_of_completion (fst (digest mem0 (JS.VBuffer []) module0))
     = Some "da39a3ee5e6b4b0d3255bfef95601890afd80709"%string.
Proof.
  split; [exact module0_wf|].
  apply (digest_empty mem0 module0 module0_wf).
Defined.

(** C5, as the specification states it, fails: the value it gives for
    ["abc"] has 39 hexadecimal digits, one short of a 20-byte digest. *)
Lemma digest_abc_is_not_the_stated_vector :
  hex_of_completion (fst (digest mem0 (JS.VBuffer abc) module0))
  <> Some "a9993e364706816aba3e25717850c26c9cd0d89"%string.
Proof. vm_compute. discriminate. Qed.

(** C5, amended.  From any state of the module, the one-shot digest of
    the three bytes ["abc"] is [a9993e364706816aba3e25717850c26c9cd0d89d]. *)
Theorem digest_abc mem m :
  wf_module m ->
  fst (digest mem (JS.VBuffer abc) m)
  = JS.Normal
      [ Byte.xa9; Byte.x99; Byte.x3e; Byte.x36; Byte.x47; Byte.x06; Byte.x81;
        Byte.x6a; Byte.xba; Byte.x3e; Byte.x25; Byte.x71; Byte.x78; Byte.x50;
        Byte.xc2; Byte.x6c; Byte.x9c; Byte.xd0; Byte.xd8; Byte.x9d ]
  /\ hex_of_completion (fst (digest mem (JS.VBuffer abc) m))
     = Some "a9993e364706816aba3e25717850c26c9cd0d89d"%string.
Proof.
  intros Hm.
  destruct (module_digest mem m abc Hm) as (c' & -> & _); [cbn; lia|].
  cbn [fst hex_of_completion].
  assert (sha1 abc =
            [ Byte.xa9; Byte.x99; Byte.x3e; Byte.x36; Byte.x47; Byte.x06; Byte.x81;
              Byte.x6a; Byte.xba; Byte.x3e; Byte.x25; Byte.x71; Byte.x78; Byte.x50;
              Byte.xc2; Byte.x6c; Byte.x9c; Byte.xd0; Byte.xd8; Byte.x9d ]) as ->
    by (vm_compute; reflexivity).
  split; [reflexivity|]. vm_compute. reflexivity.
Qed.

Lemma digest_abc_witness :
  wf_module module0
  /\ hex_of_completion (fst (digest mem0 (JS.VBuffer abc) module0))
     = Some "a9993e364706816aba3e25717850c26c9cd0d89d"%string.
Proof.
  split; [exact module0_wf|].
  apply (digest_abc mem0 module0 module0_wf).
Defined.

(** ** C6: the pairwise combiner *)

(** C6.  For two buffers of exactly 20 bytes, [root] returns the digest
    of their concatenation; when either argument is not a buffer of
    exactly 20 bytes it throws from its assertion, before the shared
    context is touched. *)
Theorem root_is_digest_of_concat mem mem' m m' left right :
  wf_module m -> wf_module m' ->
  (forall a b,
     left = JS.VBuffer a -> right = JS.VBuffer b ->
     length a = 20%nat -> length b = 20%nat ->
     fst (root mem left right m) = fst (digest mem' (JS.VBuffer (a ++ b)) m'))
  /\ (is_digest_buffer left && is_digest_buffer right = false ->
      root mem left right m = (JS.Throw JS.AssertionError, m)).
Proof.
  intros Hm Hm'. split.
  - intros a b -> -> Ha Hb.
    destruct (module_root mem m a b Hm Ha Hb) as (c1 & -> & _).
    destruct (module_digest mem' m' (a ++ b) Hm') as (c2 & -> & _); [|done].
    rewrite length_app, Ha, Hb. cbn. lia.
  - unfold root, is_digest_buffer.
    destruct left as [l| | | | | |]; try reflexivity.
    destruct (length l =? 20)%nat; [|reflexivity].
    destruct right as [r| | | | | |]; try reflexivity.
    destruct (length r =? 20)%nat; [discriminate|reflexivity].
Qed.

Lemma root_is_digest_of_concat_witness :
  wf_module module0
  /\ fst (root mem0 (JS.VBuffer (replicate 20 Byte.x01))
            (JS.VBuffer (replicate 20 Byte.x02)) module0)
     = fst (digest mem0
              (JS.VBuffer (replicate 20 Byte.x01 ++ replicate 20 Byte.x02))
              module0)
  /\ root mem0 (JS.VBuffer abc) (JS.VBuffer (replicate 20 Byte.x02)) module0
     = (JS.Throw JS.AssertionError, module0).
Proof.
  destruct (root_is_digest_of_concat mem0 mem0 module0 module0
              (JS.VBuffer (replicate 20 Byte.x01))
              (JS.VBuffer (replicate 20 Byte.x02)) module0_wf module0_wf)
    as [Hok _].
  destruct (root_is_digest_of_concat mem0 mem0 module0 module0
              (JS.VBuffer abc)
              (JS.VBuffer (replicate 20 Byte.x02)) module0_wf module0_wf)
    as [_ Hfail].
  split; [exact module0_wf|].
  split; [by apply Hok | by apply Hfail].
Defined.

(** ** C7: reusing a context *)

(** C7.  [init(); update(X); final()] run twice on one context, the
    second run starting from what the first left behind, returns the same
    digest both times, and that digest is the one a newly constructed
    context returns for [X].  The context may have been used before. *)
Theorem reuse_law c0 s0 w0 memc mem1 mem2 mem3 desc desc' msg :
  wf c0 -> length desc = 8%nat -> length desc' = 8%nat ->
  Z.of_nat (length msg) + 72 <= 2 ^ 53 ->
  let run1 := final mem1 (snd (update (JS.VBuffer msg) (init c0))) desc in
  let c1 := snd (fst run1) in
  let desc1 := snd run1 in
  let run2 := final mem2 (snd (update (JS.VBuffer msg) (init c1))) desc1 in
  let fresh :=
    final mem3
      (snd (update (JS.VBuffer msg) (init (constructor s0 w0 memc)))) desc' in
  fst (fst run1) = fst (fst run2) /\ fst (fst run2) = fst (fst fresh).
Proof.
  intros Hwf Hdesc Hdesc' Hmax. cbn zeta.
  destruct (final_update mem1 c0 desc msg)
    as (c1 & -> & Hwf1); [done..|].
  cbn [fst snd].
  destruct (final_update mem2 c1 (be64 (Z.of_nat (length msg) * 8)) msg)
    as (c2 & -> & Hwf2); [done..|].
  destruct (final_update mem3 (constructor s0 w0 memc) desc' msg)
    as (c3 & -> & Hwf3); [apply constructor_wf | done | done |].
  done.
Qed.

Lemma reuse_law_witness :
  let run1 := final mem0 (snd (update (JS.VBuffer abc) (init ctx0))) (DESC module0) in
  let run2 :=
    final mem0 (snd (update (JS.VBuffer abc) (init (snd (fst run1))))) (snd run1) in
  wf ctx0 /\ fst (fst run1) = fst (fst run2).
Proof.
  assert (Z.of_nat (length abc) + 72 <= 2 ^ 53) as Hmax by (cbn; lia).
  pose proof (reuse_law ctx0 (fun _ => 0) (fun _ => 0) (fun _ => Byte.x00)
                mem0 mem0 mem0 (DESC module0) (DESC module0) abc
                ctx0_wf eq_refl eq_refl Hmax) as H.
  cbn zeta in H. destruct H as [H _].
  split; [exact ctx0_wf | exact H].
Defined.

(** ** C8: feeding something that is not a buffer *)

(** C8, as the specification states it, fails: the error [update] throws
    for a string is not a [TypeError]. *)
Lemma update_error_is_not_TypeError :
  update (JS.VString "abc") ctx0 <> (JS.Throw JS.TypeError, ctx0).
Proof. discriminate. Qed.

(** C8, amended.  For every input that is not a [Buffer], [update] fails
    with the [AssertionError] of its [assert], before anything is written:
    the context (state words, schedule, byte counter, pending buffer) is
    the one it was called on. *)
Theorem update_rejects_non_buffer data c :
  Buffer.isBuffer data = false ->
  update data c = (JS.Throw JS.AssertionError, c).
Proof. destruct data; (discriminate || reflexivity). Qed.

Lemma update_rejects_non_buffer_witness :
  Buffer.isBuffer (JS.VString "abc") = false
  /\ update (JS.VString "abc") ctx0 = (JS.Throw JS.AssertionError, ctx0).
Proof.
  split; [reflexivity|].
  apply (update_rejects_non_buffer (JS.VString "abc") ctx0). reflexivity.
Defined.

(** ** C9: the shared scratch context *)

(** C9, as the specification states it, fails: [digest] runs on the one
    module-level context, and a call leaves that context changed. *)
Lemma digest_writes_to_the_shared_context :
  snd (digest mem0 (JS.VBuffer abc) module0) <> module0.
Proof.
  intros H. apply (f_equal (fun m => bytes (ctx m))) in H.
  vm_compute in H. discriminate.
Qed.

(** Why the sharing matters: were the steps of two calls ever interleaved
    on the shared context, the call that finishes last would return a
    digest that is not the digest of its data. *)
Lemma interleaved_calls_interfere :
  let c := snd (update (JS.VBuffer abc) (init (ctx module0))) in
  let c := snd (update (JS.VBuffer []) (init c)) in
  let '(_, c, desc) := final mem0 c (DESC module0) in
  fst (fst (final mem0 c desc)) <> sha1 abc.
Proof. vm_compute. discriminate. Qed.

(** C9, amended.  The result of [digest] does not depend on the state
    the shared module-level context and scratch buffer are in when it is
    called: every call re-initialises them, so two calls on the same data
    return the same completion whatever earlier calls left behind. *)
Theorem digest_independent_of_shared_state mem1 mem2 m1 m2 data :
  wf_module m1 -> wf_module m2 ->
  (forall b, data = JS.VBuffer b -> Z.of_nat (length b) + 72 <= 2 ^ 53) ->
  fst (digest mem1 data m1) = fst (digest mem2 data m2).
Proof.
  intros Hm1 Hm2 Hmax.
  destruct data as [b| | | | | |]; try reflexivity.
  destruct (module_digest mem1 m1 b Hm1) as (c1 & -> & _); [by apply Hmax|].
  destruct (module_digest mem2 m2 b Hm2) as (c2 & -> & _); [by apply Hmax|].
  reflexivity.
Qed.

Lemma digest_independent_of_shared_state_witness :
  wf_module module0
  /\ wf_module (snd (digest mem0 (JS.VBuffer abc) module0))
  /\ fst (digest mem0 (JS.VBuffer abc) module0)
     = fst (digest mem0 (JS.VBuffer abc)
              (snd (digest mem0 (JS.VBuffer abc) module0))).
Proof.
  assert (wf_module (snd (digest mem0 (JS.VBuffer abc) module0))) as Hm
    by (repeat split).
  split; [exact module0_wf|]. split; [exact Hm|].
  apply (digest_independent_of_shared_state mem0 mem0 module0 _
           (JS.VBuffer abc) module0_wf Hm).
  intros b Hb. injection Hb as <-. cbn. lia.
Defined.

(** ** C10: the selector stays within the table *)

(** C10.  The round loop of [transform] runs [i] over 0..79 (the schedule
    has 80 slots); for each such [i] the selector [i / 20 | 0] is one of
    0, 1, 2, 3, so [ft_1] never leaves by its fallback [return 0] and
    [K[s]] reads inside the table. *)
Theorem selector_in_range c chunk pos i :
  wf c ->
  (i < length (schedule_expand (schedule_load chunk pos (w c))))%nat ->
  (i < 80)%nat
  /\ selector i = Z.of_nat i / 20
  /\ 0 <= selector i <= 3
  /\ ft_1_branch (selector i) <> BranchFallback
  /\ (Z.to_nat (selector i) < length K)%nat
  /\ is_Some (K !! Z.to_nat (selector i)).
Proof.
  intros (_ & Hw & _) Hi. rewrite schedule_length, Hw in Hi.
  split; [done|].
  split; [by apply selector_eq|].
  selector_cases i Hi; repeat split; try lia; try discriminate; cbn; eauto.
Qed.

Lemma selector_in_range_witness :
  wf ctx0
  /\ (79 < length (schedule_expand (schedule_load abc 0 (w ctx0))))%nat
  /\ selector 79 = 3
  /\ ft_1_branch (selector 79) <> BranchFallback
  /\ (Z.to_nat (selector 79) < length K)%nat.
Proof.
  assert (79 < length (schedule_expand (schedule_load abc 0 (w ctx0))))%nat
    as Hi by (rewrite schedule_length; cbn; lia).
  destruct (selector_in_range ctx0 abc 0 79%nat ctx0_wf Hi)
    as (_ & Hsel & _ & Hbr & Hlt & _).
  repeat split; try done.
Defined.

(** * Further properties of the code *)

(** ** [readU32] and [writeU32] *)

Lemma int32_eq_mod a b :
  int32 a -> int32 b -> a mod 2 ^ 32 = b mod 2 ^ 32 -> a = b.
Proof. unfold int32. intros. elia. Qed.

Lemma readU32_int32 buf off : int32 (readU32 buf off).
Proof. apply bor_range. Qed.

Lemma be32_value v :
  byte.unsigned (byte.of_Z (v / 2 ^ 24)) * 2 ^ 24
  + byte.unsigned (byte.of_Z (v / 2 ^ 16)) * 2 ^ 16
  + byte.unsigned (byte.of_Z (v / 2 ^ 8)) * 2 ^ 8
  + byte.unsigned (byte.of_Z v)
  = v mod 2 ^ 32.
Proof.
  rewrite !byte.unsigned_of_Z. unfold byte.wrap.
  pose proof (Z.rem_mul_r v (2 ^ 24) (2 ^ 8) ltac:(lia) ltac:(lia)) as H1.
  pose proof (Z.rem_mul_r v (2 ^ 16) (2 ^ 8) ltac:(lia) ltac:(lia)) as H2.
  pose proof (Z.rem_mul_r v (2 ^ 8) (2 ^ 8) ltac:(lia) ltac:(lia)) as H3.
  change (2 ^ 24 * 2 ^ 8) with (2 ^ 32) in H1.
  change (2 ^ 16 * 2 ^ 8) with (2 ^ 24) in H2.
  change (2 ^ 8 * 2 ^ 8) with (2 ^ 16) in H3.
  lia.
Qed.

Lemma lookup_written buf v off i :
  (off + 4 <= length buf)%nat -> (i < 4)%nat ->
  writeU32 buf v (Z.of_nat off) !! (off + i)%nat = be32 v !! i.
Proof.
  intros Hlen Hi. rewrite writeU32_eq by done.
  rewrite lookup_app_r by (rewrite length_take; lia).
  rewrite length_take, Nat.min_l by lia.
  replace (off + i - off)%nat with i by lia.
  by rewrite lookup_app_l by (rewrite length_be32; lia).
Qed.

(** X1.  Reading back a word written with [writeU32] gives the value as a
    signed 32-bit integer, whatever integer was written. *)
Theorem readU32_writeU32 buf v off :
  0 <= off -> off + 4 <= Z.of_nat (length buf) ->
  readU32 (writeU32 buf v off) off = JS.ToInt32 v.
Proof.
  intros Hoff Hlen. destruct (Z_of_nat_complete off Hoff) as [n ->].
  apply int32_eq_mod; [apply readU32_int32 | apply ToInt32_range |].
  rewrite ToInt32_mod.
  pose proof (lookup_written buf v n 0 ltac:(lia) ltac:(lia)) as H0.
  pose proof (lookup_written buf v n 1 ltac:(lia) ltac:(lia)) as H1.
  pose proof (lookup_written buf v n 2 ltac:(lia) ltac:(lia)) as H2.
  pose proof (lookup_written buf v n 3 ltac:(lia) ltac:(lia)) as H3.
  rewrite Nat.add_0_r in H0.
  rewrite (readU32_mod _ _ _ _ _ _ H0 H1 H2 H3).
  apply be32_value.
Qed.

Lemma readU32_writeU32_witness :
  readU32 (writeU32 (replicate 8 Byte.x00) 0xdeadbeef 2) 2 = JS.ToInt32 0xdeadbeef
  /\ JS.ToInt32 0xdeadbeef = -559038737.
Proof.
  split; [|reflexivity].
  apply (readU32_writeU32 (replicate 8 Byte.x00) 0xdeadbeef 2); cbn; lia.
Defined.

Lemma be32_of_bytes r b0 b1 b2 b3 :
  r mod 2 ^ 32
  = byte.unsigned b0 * 2 ^ 24 + byte.unsigned b1 * 2 ^ 16
    + byte.unsigned b2 * 2 ^ 8 + byte.unsigned b3 ->
  be32 r = [b0; b1; b2; b3].
Proof.
  intros Hr. pose proof (be32_value r) as Hv. rewrite Hr in Hv.
  pose proof (byte.unsigned_range b0). pose proof (byte.unsigned_range b1).
  pose proof (byte.unsigned_range b2). pose proof (byte.unsigned_range b3).
  pose proof (byte.unsigned_range (byte.of_Z (r / 2 ^ 24))).
  pose proof (byte.unsigned_range (byte.of_Z (r / 2 ^ 16))).
  pose proof (byte.unsigned_range (byte.of_Z (r / 2 ^ 8))).
  pose proof (byte.unsigned_range (byte.of_Z r)).
  unfold be32.
  repeat (apply (f_equal2 cons); [apply byte.unsigned_inj; lia|]).
  reflexivity.
Qed.

Lemma four_bytes_at (buf : list byte) off :
  (off + 4 <= length buf)%nat ->
  exists b0 b1 b2 b3,
    buf !! off = Some b0 /\ buf !! (off + 1)%nat = Some b1
    /\ buf !! (off + 2)%nat = Some b2 /\ buf !! (off + 3)%nat = Some b3
    /\ buf = take off buf ++ [b0; b1; b2; b3] ++ drop (off + 4) buf.
Proof.
  intros Hlen.
  destruct (lookup_lt_is_Some_2 buf off ltac:(lia)) as [b0 H0].
  destruct (lookup_lt_is_Some_2 buf (off + 1) ltac:(lia)) as [b1 H1].
  destruct (lookup_lt_is_Some_2 buf (off + 2) ltac:(lia)) as [b2 H2].
  destruct (lookup_lt_is_Some_2 buf (off + 3) ltac:(lia)) as [b3 H3].
  exists b0, b1, b2, b3. repeat split; try done.
  rewrite <- (take_drop off buf) at 1. f_equal. cbn [app].
  rewrite (drop_S _ _ _ H0).
  replace (S off) with (off + 1)%nat by lia.
  rewrite (drop_S _ _ _ H1).
  replace (S (off + 1)) with (off + 2)%nat by lia.
  rewrite (drop_S _ _ _ H2).
  replace (S (off + 2)) with (off + 3)%nat by lia.
  rewrite (drop_S _ _ _ H3).
  replace (S (off + 3)) with (off + 4)%nat by lia. reflexivity.
Qed.

(** X2.  Writing back the word read at an offset leaves the buffer as it
    is, although [readU32] may have returned a negative number. *)
Theorem writeU32_readU32 buf off :
  0 <= off -> off + 4 <= Z.of_nat (length buf) ->
  writeU32 buf (readU32 buf off) off = buf.
Proof.
  intros Hoff Hlen. destruct (Z_of_nat_complete off Hoff) as [n ->].
  destruct (four_bytes_at buf n ltac:(lia))
    as (b0 & b1 & b2 & b3 & H0 & H1 & H2 & H3 & Hbuf).
  rewrite writeU32_eq by lia.
  rewrite (be32_of_bytes _ b0 b1 b2 b3); [by rewrite <- Hbuf|].
  by apply readU32_mod.
Qed.

Lemma writeU32_readU32_witness :
  let buf := [Byte.x01; Byte.xff; Byte.x80; Byte.x00; Byte.x7f; Byte.x02] in
  readU32 buf 1 < 0 /\ writeU32 buf (readU32 buf 1) 1 = buf.
Proof.
  cbn zeta. split; [reflexivity|].
  apply (writeU32_readU32
           [Byte.x01; Byte.xff; Byte.x80; Byte.x00; Byte.x7f; Byte.x02] 1);
    cbn; lia.
Defined.

Lemma Buffer_set_length buf i v : length (Buffer.set buf i v) = length buf.
Proof. unfold Buffer.set. destruct (i <? 0); [done|apply length_insert]. Qed.

Lemma Buffer_set_other buf i v j :
  i <> Z.of_nat j -> Buffer.set buf i v !! j = buf !! j.
Proof.
  intros Hne. unfold Buffer.set. destruct (Z.ltb_spec i 0); [done|].
  apply list_lookup_insert_ne. lia.
Qed.

Lemma Buffer_get_past buf i : Z.of_nat (length buf) <= i -> Buffer.get buf i = 0.
Proof.
  intros Hi. unfold Buffer.get. destruct (Z.ltb_spec i 0); [done|].
  by rewrite lookup_ge_None_2 by lia.
Qed.

(** X3.  Out-of-range behaviour: for every offset, also a negative one or
    one at or past the end, [writeU32] keeps the length of the buffer and
    every byte outside the four positions [offset .. offset + 3] (bytes
    that would fall outside the buffer are dropped); [readU32] at or past
    the end returns 0. *)
Theorem readU32_writeU32_bounds buf v off :
  length (writeU32 buf v off) = length buf
  /\ (forall j, Z.of_nat j < off \/ off + 4 <= Z.of_nat j ->
      writeU32 buf v off !! j = buf !! j)
  /\ (Z.of_nat (length buf) <= off -> readU32 buf off = 0).
Proof.
  split; [|split].
  - unfold writeU32. by rewrite !Buffer_set_length.
  - intros j Hj. unfold writeU32.
    rewrite !Buffer_set_other by lia. done.
  - intros Hoff. unfold readU32.
    rewrite !Buffer_get_past by lia. reflexivity.
Qed.

Lemma readU32_writeU32_bounds_witness :
  length (writeU32 [Byte.x01; Byte.x02; Byte.x03] 0xdeadbeef 1) = 3%nat
  /\ writeU32 [Byte.x01; Byte.x02; Byte.x03] 0xdeadbeef 1 !! 0%nat = Some Byte.x01
  /\ readU32 [Byte.x01; Byte.x02; Byte.x03] 3 = 0.
Proof.
  pose proof (readU32_writeU32_bounds [Byte.x01; Byte.x02; Byte.x03] 0xdeadbeef 1)
    as (H1 & H2 & _).
  pose proof (readU32_writeU32_bounds [Byte.x01; Byte.x02; Byte.x03] 0 3)
    as (_ & _ & H3).
  split; [exact H1|]. split; [apply (H2 0%nat); cbn; lia | apply H3; cbn; lia].
Defined.

(** X4.  For four bytes inside the buffer [readU32] returns their
    big-endian value as a signed 32-bit integer: it is negative exactly
    when the first byte is 0x80 or more. *)
Theorem readU32_signed buf off b0 b1 b2 b3 :
  buf !! off = Some b0 ->
  buf !! (off + 1)%nat = Some b1 ->
  buf !! (off + 2)%nat = Some b2 ->
  buf !! (off + 3)%nat = Some b3 ->
  let word :=
    byte.unsigned b0 * 2 ^ 24 + byte.unsigned b1 * 2 ^ 16
    + byte.unsigned b2 * 2 ^ 8 + byte.unsigned b3 in
  readU32 buf (Z.of_nat off) = JS.ToInt32 word
  /\ readU32 buf (Z.of_nat off)
     = (if 128 <=? byte.unsigned b0 then word - 2 ^ 32 else word).
Proof.
  intros H0 H1 H2 H3. cbn zeta.
  pose proof (readU32_mod _ _ _ _ _ _ H0 H1 H2 H3) as Hm.
  pose proof (readU32_int32 buf (Z.of_nat off)) as Hr.
  pose proof (byte.unsigned_range b0). pose proof (byte.unsigned_range b1).
  pose proof (byte.unsigned_range b2). pose proof (byte.unsigned_range b3).
  split.
  - apply int32_eq_mod; [done | apply ToInt32_range |].
    by rewrite ToInt32_mod, Hm, Z.mod_small by lia.
  - unfold int32 in Hr.
    destruct (Z.leb_spec 128 (byte.unsigned b0));
      revert Hm Hr; generalize (readU32 buf (Z.of_nat off)); intros r Hm Hr;
      Z.div_mod_to_equations; lia.
Qed.

Lemma readU32_signed_witness :
  readU32 [Byte.xff; Byte.xff; Byte.xff; Byte.xfe] (Z.of_nat 0) = -2.
Proof.
  destruct (readU32_signed [Byte.xff; Byte.xff; Byte.xff; Byte.xfe] 0
              Byte.xff Byte.xff Byte.xff Byte.xfe
              eq_refl eq_refl eq_refl eq_refl) as [_ H].
  exact H.
Defined.

(** ** [rotl32] and the round functions *)

Lemma testbit_ToInt32 x i :
  0 <= i < 32 -> Z.testbit (JS.ToInt32 x) i = Z.testbit x i.
Proof.
  intros Hi.
  rewrite <- (Z.mod_pow2_bits_low (JS.ToInt32 x) 32 i) by lia.
  rewrite ToInt32_mod. apply Z.mod_pow2_bits_low. lia.
Qed.

Lemma rotate_left_testbit x n i :
  0 < n < 32 -> 0 <= x < 2 ^ 32 -> 0 <= i ->
  Z.testbit (Spec.rotate_left x n) i
  = if i <? n then Z.testbit x (i + (32 - n))
    else if i <? 32 then Z.testbit x (i - n) else false.
Proof.
  intros Hn Hx Hi. unfold Spec.rotate_left.
  rewrite Z.lor_spec, Z.shiftr_spec by lia.
  assert (Hhigh : forall j, 32 <= j -> Z.testbit x j = false).
  { intros j Hj. rewrite <- (Z.mod_small x (2 ^ 32)) by lia.
    apply Z.mod_pow2_bits_high. lia. }
  destruct (Z.ltb_spec i n).
  - rewrite Z.mod_pow2_bits_low, Z.shiftl_spec, Z.testbit_neg_r by lia.
    reflexivity.
  - rewrite (Hhigh (i + (32 - n))), orb_false_r by lia.
    destruct (Z.ltb_spec i 32).
    + by rewrite Z.mod_pow2_bits_low, Z.shiftl_spec by lia.
    + apply Z.mod_pow2_bits_high. lia.
Qed.

Lemma rotate_left_range x n :
  0 < n < 32 -> 0 <= x < 2 ^ 32 -> 0 <= Spec.rotate_left x n < 2 ^ 32.
Proof.
  intros Hn Hx. rewrite <- (Z.mod_small x (2 ^ 32)) by lia.
  rewrite <- rotl32_mod by lia. apply Z.mod_pos_bound. lia.
Qed.

Lemma rotate_left_inverse x n :
  0 < n < 32 -> 0 <= x < 2 ^ 32 ->
  Spec.rotate_left (Spec.rotate_left x n) (32 - n) = x.
Proof.
  intros Hn Hx.
  pose proof (rotate_left_range x n Hn Hx) as Hr.
  apply Z.bits_inj'. intros i Hi.
  rewrite rotate_left_testbit by lia.
  destruct (Z.ltb_spec i (32 - n)).
  - rewrite rotate_left_testbit by lia.
    destruct (Z.ltb_spec (i + (32 - (32 - n))) n); [lia|].
    destruct (Z.ltb_spec (i + (32 - (32 - n))) 32); [|lia].
    f_equal. lia.
  - destruct (Z.ltb_spec i 32).
    + rewrite rotate_left_testbit by lia.
      destruct (Z.ltb_spec (i - (32 - n)) n); [|lia].
      f_equal. lia.
    + symmetry. rewrite <- (Z.mod_small x (2 ^ 32)) by lia.
      apply Z.mod_pow2_bits_high. lia.
Qed.

(** X5.  Rotation is undone by the complementary rotation: for a shift
    count strictly between 0 and 32, rotating by [n] and then by [32 - n]
    gives back the argument as a signed 32-bit integer. *)
Theorem rotl32_inverse x n :
  0 < n < 32 -> rotl32 (rotl32 x n) (32 - n) = JS.ToInt32 x.
Proof.
  intros Hn. apply int32_eq_mod.
  - apply rotl32_range.
  - apply ToInt32_range.
  - rewrite rotl32_mod, rotl32_mod, ToInt32_mod by lia.
    apply rotate_left_inverse; [lia|]. apply Z.mod_pos_bound. lia.
Qed.

Lemma rotl32_inverse_witness :
  rotl32 (rotl32 0xdeadbeef 5) (32 - 5) = JS.ToInt32 0xdeadbeef.
Proof. apply (rotl32_inverse 0xdeadbeef 5). lia. Defined.

Lemma testbit_bor a b i :
  0 <= i < 32 -> Z.testbit (JS.bor a b) i = Z.testbit a i || Z.testbit b i.
Proof.
  intros Hi. unfold JS.bor.
  by rewrite testbit_ToInt32, Z.lor_spec, !testbit_ToInt32.
Qed.

Lemma testbit_band a b i :
  0 <= i < 32 -> Z.testbit (JS.band a b) i = Z.testbit a i && Z.testbit b i.
Proof.
  intros Hi. unfold JS.band.
  by rewrite testbit_ToInt32, Z.land_spec, !testbit_ToInt32.
Qed.

Lemma testbit_bxor a b i :
  0 <= i < 32 -> Z.testbit (JS.bxor a b) i = xorb (Z.testbit a i) (Z.testbit b i).
Proof.
  intros Hi. unfold JS.bxor.
  by rewrite testbit_ToInt32, Z.lxor_spec, !testbit_ToInt32.
Qed.

Lemma testbit_bnot a i :
  0 <= i < 32 -> Z.testbit (JS.bnot a) i = negb (Z.testbit a i).
Proof.
  intros Hi. unfold JS.bnot.
  by rewrite testbit_ToInt32, Z.lnot_spec, testbit_ToInt32 by lia.
Qed.

(** X6.  Bit by bit, on the 32 low bits of any three numbers: [ch32]
    chooses the bit of [y] where [x] has a 1 and the bit of [z] where it
    has a 0, [maj32] is the majority of the three bits, and [p32] is
    their parity. *)
Theorem round_functions_bitwise x y z i :
  0 <= i < 32 ->
  Z.testbit (ch32 x y z) i
  = (if Z.testbit x i then Z.testbit y i else Z.testbit z i)
  /\ Z.testbit (maj32 x y z) i
     = (Z.testbit x i && Z.testbit y i || Z.testbit x i && Z.testbit z i
        || Z.testbit y i && Z.testbit z i)
  /\ Z.testbit (p32 x y z) i
     = xorb (xorb (Z.testbit x i) (Z.testbit y i)) (Z.testbit z i).
Proof.
  intros Hi. unfold ch32, maj32, p32.
  rewrite ?testbit_bxor, ?testbit_band, ?testbit_bnot by lia.
  repeat split; by destruct (Z.testbit x i), (Z.testbit y i), (Z.testbit z i).
Qed.

Lemma round_functions_bitwise_witness :
  Z.testbit (ch32 0xf0 0xcc 0xaa) 7 = true
  /\ Z.testbit (maj32 0xf0 0xcc 0xaa) 5 = true
  /\ Z.testbit (p32 0xf0 0xcc 0xaa) 4 = true.
Proof.
  pose proof (round_functions_bitwise 0xf0 0xcc 0xaa 7 ltac:(lia)) as [H7 _].
  pose proof (round_functions_bitwise 0xf0 0xcc 0xaa 5 ltac:(lia)) as (_ & H5 & _).
  pose proof (round_functions_bitwise 0xf0 0xcc 0xaa 4 ltac:(lia)) as (_ & _ & H4).
  split; [exact H7 | split; [exact H5 | exact H4]].
Defined.

(** ** [transform] *)



Lemma Buffer_get_zeros buf k i :
  Buffer.get (buf ++ replicate k Byte.x00) i = Buffer.get buf i.
Proof.
  unfold Buffer.get. destruct (Z.ltb_spec i 0); [done|].
  destruct (decide (Z.to_nat i < length buf)%nat) as [Hlt|Hge].
  - by rewrite lookup_app_l.
  - rewrite lookup_app_r, (lookup_ge_None_2 buf) by lia.
    destruct (replicate k Byte.x00 !! _) as [b|] eqn:Hb; [|done].
    apply lookup_replicate in Hb as [-> _]. reflexivity.
Qed.

(** X8.  Bytes that [transform] reads past the end of the chunk count as
    zero: compressing a chunk that is too short gives the same context
    as compressing it with zero bytes appended, at every position. *)
Theorem transform_short_chunk c chunk pos k :
  transform c (chunk ++ replicate k Byte.x00) pos = transform c chunk pos.
Proof. apply transform_ext. intros i. apply Buffer_get_zeros. Qed.

(** X9.  The additions of a round are exact although they are made on
    doubles: while the working variables stay in the range that [vsmall]
    describes and the schedule slot is a signed 32-bit integer, [round]
    returns the mathematical sum, unrounded and not reduced, and the new
    working variables are in that range again. *)
Theorem round_is_exact ws a b c d e i :
  (i < 80)%nat -> int32 (ws !!! i) -> vsmall (a, b, c, d, e) ->
  round ws (a, b, c, d, e) i
  = (rotl32 a 5 + ft_1 (selector i) b c d + e + ws !!! i
       + K !!! Z.to_nat (selector i),
     a, rotl32 b 30, c, d)
  /\ vsmall (round ws (a, b, c, d, e) i).
Proof.
  intros Hi Hwr (Ba & Bb & Bc & Bd & Be).
  unfold round, vsmall.
  rewrite K_selector by done.
  pose proof (rotl32_range a 5) as Hr5.
  pose proof (rotl32_range b 30) as Hr30.
  pose proof (ft_1_range (selector i) b c d) as Hf.
  pose proof (k_range i) as Hk.
  unfold int32 in *.
  revert Hr5 Hr30 Hf Hwr Hk.
  generalize (rotl32 a 5) (rotl32 b 30) (ft_1 (selector i) b c d)
    (ws !!! i) (Spec.k i).
  intros r5 r30 f wi ki Hr5 Hr30 Hf Hwr Hk.
  rewrite (add_small r5 f) by lia.
  rewrite (add_small (r5 + f) e) by lia.
  rewrite (add_small (r5 + f + e) wi) by lia.
  rewrite (add_small (r5 + f + e + wi) ki) by lia.
  split; [reflexivity|]. lia.
Qed.

Lemma round_is_exact_witness :
  round [2 ^ 31 - 1] (2 ^ 31 - 1, -1, 5, 6, 2 ^ 32 - 1) 0
  = (rotl32 (2 ^ 31 - 1) 5 + ft_1 (selector 0) (-1) 5 6 + (2 ^ 32 - 1)
       + [2 ^ 31 - 1] !!! 0%nat + K !!! Z.to_nat (selector 0),
     2 ^ 31 - 1, rotl32 (-1) 30, 5, 6).
Proof.
  refine (proj1 (round_is_exact [2 ^ 31 - 1] (2 ^ 31 - 1) (-1) 5 6 (2 ^ 32 - 1) 0
                   _ _ _)).
  - lia.
  - unfold int32. cbn. lia.
  - unfold vsmall. lia.
Defined.

(** ** Contexts *)

Lemma for_loop_inv {A} (P : A -> Prop) n body (a : A) :
  P a -> (forall a i, P a -> P (body a i)) -> P (JS.for_loop n body a).
Proof.
  intros Ha Hbody. unfold JS.for_loop. revert a Ha.
  induction (seq 0 (Z.to_nat n)) as [|i l IH]; intros a Ha; [done|].
  cbn [foldl]. by apply IH, Hbody.
Qed.

Lemma writeU32_length buf v off : length (writeU32 buf v off) = length buf.
Proof. unfold writeU32. by rewrite !Buffer_set_length. Qed.

Lemma transform_keeps_wf c chunk pos : wf c -> wf (transform c chunk pos).
Proof.
  intros (Hs & Hw & Hb).
  destruct (transform_shape c chunk pos Hs) as (Hs' & _ & Hw' & Hb' & _).
  unfold wf. by rewrite Hs', Hw', Hb'.
Qed.

Lemma update_blocks_wf data : forall n c pos len,
  (Z.to_nat len <= n)%nat -> wf c ->
  wf (fst (fst (update_blocks c data pos len))).
Proof.
  induction n as [|n IH]; intros c pos len Hn Hwf;
    rewrite update_blocks_step; case_decide; try done; try lia.
  apply IH; [lia|]. by apply transform_keeps_wf.
Qed.

Lemma copy_keeps_length n (f : nat -> Z) (g : nat -> Z) blk :
  length (JS.for_loop n (fun b i => Buffer.set b (f i) (g i)) blk) = length blk.
Proof.
  apply (for_loop_inv (fun b => length b = length blk)); [done|].
  intros b i Hb. by rewrite Buffer_set_length.
Qed.

Lemma update_rest_wf c data pos len : wf c -> wf (update_rest c data pos len).
Proof.
  intros Hwf. unfold update_rest.
  pose proof (update_blocks_wf data (Z.to_nat len) c pos len ltac:(lia) Hwf) as H.
  destruct (update_blocks c data pos len) as [[c1 pos1] len1].
  cbn [fst] in H. destruct H as (Hs & Hw & Hb).
  unfold wf, set_block. cbn [s w block].
  by rewrite copy_keeps_length.
Qed.

Lemma _update_wf c data len : wf c -> wf (_update c data len).
Proof.
  intros (Hs & Hw & Hb). unfold _update.
  set (c1 := set_bytes c _).
  assert (wf c1) as Hwf1 by done.
  destruct (0 <? JS.band (bytes c) 63); [|by apply update_rest_wf].
  set (c2 := set_block c1 _).
  assert (wf c2) as Hwf2.
  { unfold wf, c2, set_block. cbn [s w block].
    by rewrite copy_keeps_length. }
  destruct (_ <? 64); [done|].
  by apply update_rest_wf, transform_keeps_wf.
Qed.

Lemma _final_wf out c desc :
  wf c -> length desc = 8%nat ->
  length (fst (fst (_final out c desc))) = length out
  /\ wf (snd (fst (_final out c desc)))
  /\ length (snd (_final out c desc)) = 8%nat.
Proof.
  intros Hwf Hdesc. unfold _final.
  set (desc' := writeU32 (writeU32 desc _ 0) _ 4).
  assert (length desc' = 8%nat) as Hdesc'
    by (unfold desc'; by rewrite !writeU32_length).
  set (c2 := _update (_update c PADDING _) desc' 8).
  assert (wf c2) as Hwf2 by (by apply _update_wf, _update_wf).
  clearbody c2 desc'.
  pose proof (for_loop_inv
                (fun p : list byte * SHA1 => length (fst p) = length out /\ wf (snd p))
                5
                (fun '(out, c) i =>
                   (writeU32 out (s c !!! i) (Z.of_nat i * 4),
                    set_s c (<[i := 0]> (s c))))
                (out, c2)) as Hloop.
  destruct (JS.for_loop 5 _ (out, c2)) as [out' c'].
  cbn [fst snd] in *.
  destruct Hloop as [Hout Hwf']; [done | | done].
  intros [o c0] i [Ho (Hs0 & Hw0 & Hb0)]. cbn [fst snd].
  rewrite writeU32_length. split; [done|].
  unfold wf, set_s. cbn [s w block]. by rewrite length_insert.
Qed.

Lemma length_allocUnsafe n mem : length (Buffer.allocUnsafe n mem) = n.
Proof. unfold Buffer.allocUnsafe. by rewrite length_map, length_seq. Qed.

Lemma final_wf mem c desc :
  wf c -> length desc = 8%nat ->
  length (fst (fst (final mem c desc))) = 20%nat
  /\ wf (snd (fst (final mem c desc)))
  /\ length (snd (final mem c desc)) = 8%nat.
Proof.
  intros Hwf Hdesc. unfold final.
  destruct (_final_wf (Buffer.allocUnsafe 20 mem) c desc Hwf Hdesc)
    as (Ho & Hc & Hd).
  by rewrite Ho, length_allocUnsafe.
Qed.

Lemma init_wf c : wf c -> wf (init c).
Proof. intros Hwf. apply (init_inv c Hwf). Qed.

Lemma update_wf data c : wf c -> wf (snd (update data c)).
Proof.
  intros Hwf. destruct data; try done. cbn [update snd]. by apply _update_wf.
Qed.

(** X10.  The module-level state keeps its shape through every call:
    whatever [digest] and [root] are given (a buffer of any size, or a
    value that makes them throw), the shared context afterwards still has
    5 state slots, 80 schedule slots and a 64-byte block, and [DESC] has
    8 bytes; a digest that is returned has 20 bytes. *)
Theorem module_state_is_preserved mem data left right m :
  wf_module m ->
  wf_module (snd (digest mem data m))
  /\ wf_module (snd (root mem left right m))
  /\ (forall out, fst (digest mem data m) = JS.Normal out -> length out = 20%nat)
  /\ (forall out, fst (root mem left right m) = JS.Normal out ->
      length out = 20%nat).
Proof.
  intros [Hwf Hdesc].
  assert (forall c, wf c ->
            let r := final mem c (DESC m) in
            wf_module {| DESC := snd r; ctx := snd (fst r) |}
            /\ length (fst (fst r)) = 20%nat) as Hfinal.
  { intros c Hc. destruct (final_wf mem c (DESC m) Hc Hdesc) as (Ho & Hc' & Hd).
    cbn zeta. split; [split; [exact Hc' | exact Hd] | exact Ho]. }
  assert (wf_module {| DESC := DESC m; ctx := init (ctx m) |}) as Hthrow
    by (split; [by apply init_wf | done]).
  assert (forall b,
            wf_module (snd (digest mem (JS.VBuffer b) m))
            /\ forall out, fst (digest mem (JS.VBuffer b) m) = JS.Normal out ->
                           length out = 20%nat) as Hdigest.
  { intros b. unfold digest. cbn [update].
    destruct (Hfinal (_update (init (ctx m)) b (Z.of_nat (length b))))
      as [Hm' Hout]; [by apply _update_wf, init_wf|].
    cbn zeta in Hm', Hout.
    destruct (final mem _ (DESC m)) as [[out c'] desc'].
    cbn [fst snd] in *. split; [done|]. by intros ? [= <-]. }
  split; [|split; [|split]].
  - destruct data; try exact Hthrow. apply Hdigest.
  - unfold root.
    destruct left as [l| | | | | |]; try by split.
    destruct (negb _); [by split|].
    destruct right as [r| | | | | |]; try by split.
    destruct (negb _); [by split|].
    cbn [update].
    destruct (Hfinal (_update (_update (init (ctx m)) l (Z.of_nat (length l)))
                        r (Z.of_nat (length r)))) as [Hm' _];
      [by apply _update_wf, _update_wf, init_wf|].
    cbn zeta in Hm'.
    by destruct (final mem _ (DESC m)) as [[out c'] desc'].
  - destruct data; try (intros out; cbn; discriminate). apply Hdigest.
  - unfold root. intros out.
    destruct left as [l| | | | | |]; try (cbn; discriminate).
    destruct (negb _); [cbn; discriminate|].
    destruct right as [r| | | | | |]; try (cbn; discriminate).
    destruct (negb _); [cbn; discriminate|].
    cbn [update].
    destruct (Hfinal (_update (_update (init (ctx m)) l (Z.of_nat (length l)))
                        r (Z.of_nat (length r)))) as [_ Hout];
      [by apply _update_wf, _update_wf, init_wf|].
    cbn zeta in Hout.
    destruct (final mem _ (DESC m)) as [[out' c'] desc'].
    cbn [fst snd] in *. by intros [= <-].
Qed.

Lemma module_state_is_preserved_witness :
  wf_module (snd (digest mem0 (JS.VString "abc") module0))
  /\ wf_module (snd (root mem0 (JS.VBuffer abc) JS.VNull module0)).
Proof.
  pose proof (module_state_is_preserved mem0 (JS.VString "abc")
                (JS.VBuffer abc) JS.VNull module0 module0_wf) as (H1 & H2 & _).
  split; [exact H1 | exact H2].
Defined.

Lemma length_serialize h : length (serialize h) = (4 * length h)%nat.
Proof.
  unfold serialize. induction h as [|x h IH]; [done|].
  cbn [map concat length]. rewrite length_app, length_be32, IH. lia.
Qed.

Lemma absorb_inv h l :
  length h = 5%nat -> Forall Spec.word h ->
  length (absorb h l) = 5%nat /\ Forall Spec.word (absorb h l).
Proof. intros. by apply hash_blocks_inv. Qed.

Lemma padded_length n :
  0 <= n ->
  (n + Z.of_nat (length (padding n))) mod 64 = 0
  /\ 9 <= Z.of_nat (length (padding n)) <= 72.
Proof. intros Hn. rewrite padding_length by done. elia. Qed.

(** What [_final] returns and what it leaves in the context. *)
Lemma _final_state out c desc :
  inv c -> length out = 20%nat -> length desc = 8%nat ->
  bytes c + 72 <= 2 ^ 53 ->
  exists ws blk,
    _final out c desc
    = (serialize (absorb (s c) (pending c ++ padding (bytes c))),
       {| s := [0; 0; 0; 0; 0]; w := ws; block := blk;
          bytes := bytes c + Z.of_nat (length (padding (bytes c))) |},
       be64 (bytes c * 8))
    /\ length ws = 80%nat /\ length blk = 64%nat.
Proof.
  intros Hinv Hout Hdesc Hmax.
  pose proof Hinv as (Hwf & Hwords & Hn).
  unfold _final.
  rewrite mul_8_exact by lia.
  rewrite DESC_written by (done || lia).
  replace (1 + Z.rem (119 - Z.rem (bytes c) 64) 64)
    with (Z.of_nat (S (pad_zeros (bytes c)))) by (unfold pad_zeros; elia).
  assert (pad_zeros (bytes c) < 64)%nat as Hpz by (unfold pad_zeros; elia).
  destruct (_update_sim c PADDING (S (pad_zeros (bytes c))))
    as (Hinv1 & Hn1 & Hs1 & Hp1);
    [done | change (length PADDING) with 64%nat; lia | lia |].
  set (c1 := _update c PADDING _) in *.
  change 8 with (Z.of_nat 8).
  destruct (_update_sim c1 (be64 (bytes c * 8)) 8)
    as (Hinv2 & Hn2 & Hs2 & Hp2); [done | done | lia |].
  set (c2 := _update c1 _ _) in *.
  rewrite (take_ge (be64 _)) in Hs2 by done.
  assert (take (S (pad_zeros (bytes c))) PADDING
          = Byte.x80 :: replicate (pad_zeros (bytes c)) Byte.x00) as Htake.
  { rewrite PADDING_eq. cbn [take firstn].
    by rewrite take_replicate, Nat.min_l by lia. }
  rewrite Htake in Hs1, Hp1.
  destruct (absorb_app (s c)
              (pending c ++ Byte.x80 :: replicate (pad_zeros (bytes c)) Byte.x00)
              (be64 (bytes c * 8))) as [Ha _].
  rewrite <- Hs1, <- Hp1, <- Hs2 in Ha.
  rewrite <- app_assoc in Ha. cbn [app] in Ha.
  change (Byte.x80 :: replicate (pad_zeros (bytes c)) Byte.x00 ++ be64 (bytes c * 8))
    with (padding (bytes c)) in Ha.
  destruct Hinv2 as (Hwf2 & _ & _).
  rewrite serialize_loop by (done || apply Hwf2).
  exists (w c2), (block c2). rewrite Ha. unfold set_s. cbn [w block bytes].
  split; [|by destruct Hwf2 as (_ & ? & ?)].
  do 3 f_equal. rewrite Hn2, Hn1.
  unfold padding. cbn [length]. rewrite length_app, length_replicate, length_be64.
  lia.
Qed.

(** One [update] followed by [final], from any context. *)
Lemma update_final_sim mem c desc msg :
  inv c -> length desc = 8%nat ->
  bytes c + Z.of_nat (length msg) + 72 <= 2 ^ 53 ->
  exists ws blk,
    final mem (snd (update (JS.VBuffer msg) c)) desc
    = (serialize
         (absorb (s c)
            (pending c ++ msg ++ padding (bytes c + Z.of_nat (length msg)))),
       {| s := [0; 0; 0; 0; 0]; w := ws; block := blk;
          bytes := bytes c + Z.of_nat (length msg)
                   + Z.of_nat (length (padding (bytes c + Z.of_nat (length msg)))) |},
       be64 ((bytes c + Z.of_nat (length msg)) * 8))
    /\ length ws = 80%nat /\ length blk = 64%nat.
Proof.
  intros Hinv Hdesc Hmax. cbn [update snd].
  destruct (_update_sim c msg (length msg)) as (Hinv1 & Hn1 & Hs1 & Hp1);
    [done | done | lia |].
  rewrite take_ge in Hs1, Hp1 by done.
  set (c1 := _update c msg _) in *.
  destruct (_final_state (Buffer.allocUnsafe 20 mem) c1 desc)
    as (ws & blk & Heq & Hws & Hblk);
    [done | apply length_allocUnsafe | done | lia |].
  exists ws, blk. unfold final. rewrite Heq, Hs1, Hp1, Hn1.
  destruct (absorb_app (s c) (pending c ++ msg)
              (padding (bytes c + Z.of_nat (length msg)))) as [-> _].
  by rewrite <- app_assoc.
Qed.

(** X11.  What [final] leaves behind: the five state words are set to 0,
    the byte counter is not reset but has advanced by the length of the
    padding to the next multiple of 64, [DESC] holds the bit length of
    the message as 8 big-endian bytes, and the digest has 20 bytes. *)
Theorem final_clears_state_keeps_count mem c desc :
  inv c -> length desc = 8%nat -> bytes c + 72 <= 2 ^ 53 ->
  let '(out, c', desc') := final mem c desc in
  length out = 20%nat
  /\ s c' = [0; 0; 0; 0; 0]
  /\ bytes c' mod 64 = 0
  /\ bytes c + 9 <= bytes c' <= bytes c + 72
  /\ desc' = be64 (bytes c * 8)
  /\ inv c'.
Proof.
  intros Hinv Hdesc Hmax. pose proof Hinv as ((Hs & _) & Hwords & Hn).
  destruct (_final_state (Buffer.allocUnsafe 20 mem) c desc)
    as (ws & blk & Heq & Hws & Hblk);
    [done | apply length_allocUnsafe | done | lia |].
  unfold final. rewrite Heq.
  destruct (padded_length (bytes c) Hn) as [Hmod Hlen].
  destruct (absorb_inv (s c) (pending c ++ padding (bytes c)) Hs Hwords)
    as [Hlen5 _].
  cbn [s bytes]. rewrite length_serialize, Hlen5.
  repeat split; try done; try lia.
  - cbn [s]. unfold Spec.word. repeat constructor; lia.
  - cbn [bytes]. lia.
Qed.

Lemma final_clears_state_keeps_count_witness :
  let '(out, c', desc') := final mem0 (init ctx0) (replicate 8 Byte.x00) in
  length out = 20%nat
  /\ s c' = [0; 0; 0; 0; 0]
  /\ bytes c' mod 64 = 0
  /\ bytes (init ctx0) + 9 <= bytes c' <= bytes (init ctx0) + 72
  /\ desc' = be64 (bytes (init ctx0) * 8)
  /\ inv c'.
Proof.
  apply (final_clears_state_keeps_count mem0 (init ctx0) (replicate 8 Byte.x00)).
  - apply init_ctx0_inv.
  - reflexivity.
  - cbn. lia.
Defined.

(** X12.  A context is not ready for a new message after [final]: when
    [update] and [final] are called again without [init], nothing
    throws, and the value returned is computed from the all-zero state
    with a length field that still counts the previous message and its
    padding. *)
Theorem update_after_final_without_init mem mem' c desc msg :
  inv c -> length desc = 8%nat ->
  bytes c + Z.of_nat (length msg) + 144 <= 2 ^ 53 ->
  let '(_, c1, desc1) := final mem c desc in
  let n := bytes c + Z.of_nat (length (padding (bytes c)))
           + Z.of_nat (length msg) in
  fst (fst (final mem' (snd (update (JS.VBuffer msg) c1)) desc1))
  = serialize (absorb [0; 0; 0; 0; 0] (msg ++ padding n)).
Proof.
  intros Hinv Hdesc Hmax. pose proof Hinv as (_ & _ & Hn).
  destruct (_final_state (Buffer.allocUnsafe 20 mem) c desc)
    as (ws & blk & Heq & Hws & Hblk);
    [done | apply length_allocUnsafe | done | lia |].
  unfold final at 1. rewrite Heq. cbn zeta.
  destruct (padded_length (bytes c) Hn) as [Hmod Hlen].
  set (c1 := {| s := [0; 0; 0; 0; 0]; w := ws; block := blk;
                bytes := bytes c + Z.of_nat (length (padding (bytes c))) |}).
  assert (inv c1) as Hinv1.
  { split; [done|]. unfold c1. cbn [s bytes]. split; [|lia].
    unfold Spec.word. repeat constructor; lia. }
  destruct (update_final_sim mem' c1 (be64 (bytes c * 8)) msg)
    as (ws' & blk' & Heq' & _);
    [done | apply length_be64 | unfold c1; cbn [bytes]; lia |].
  rewrite Heq'. cbn [fst]. unfold pending, c1. cbn [s bytes block].
  by rewrite Hmod, take_0.
Qed.

Lemma update_after_final_without_init_witness :
  fst (fst (final mem0
              (snd (update (JS.VBuffer [])
                      (snd (fst (final mem0 (init ctx0) (replicate 8 Byte.x00))))))
              (snd (final mem0 (init ctx0) (replicate 8 Byte.x00)))))
  = serialize (absorb [0; 0; 0; 0; 0] ([] ++ padding 64))
  /\ serialize (absorb [0; 0; 0; 0; 0] ([] ++ padding 64)) <> sha1 [].
Proof.
  split.
  - pose proof (update_after_final_without_init mem0 mem0 (init ctx0)
                  (replicate 8 Byte.x00) [] init_ctx0_inv eq_refl
                  ltac:(cbn; lia)) as H.
    destruct (final mem0 (init ctx0) (replicate 8 Byte.x00)) as [[o c1] d1].
    exact H.
  - intros H. vm_compute in H. discriminate H.
Defined.

(** X13.  Input that does not fill the pending block is only buffered:
    when fewer than 64 bytes are pending after an [update], the state
    words are the same as before and the bytes are appended to those
    already pending. *)
Theorem update_buffers_short_input c data :
  inv c -> (length (pending c) + length data < 64)%nat ->
  bytes c + Z.of_nat (length data) <= 2 ^ 53 ->
  let c' := snd (update (JS.VBuffer data) c) in
  s c' = s c
  /\ pending c' = pending c ++ data
  /\ bytes c' = bytes c + Z.of_nat (length data).
Proof.
  intros Hinv Hshort Hmax. cbn [update snd]. cbn zeta.
  destruct (_update_sim c data (length data)) as (_ & Hn1 & Hs1 & Hp1);
    [done | done | lia |].
  rewrite take_ge in Hs1, Hp1 by done.
  destruct (absorb_short (s c) (pending c ++ data)) as [Ha Hl];
    [by rewrite length_app|].
  by rewrite Hs1, Hp1, Hn1, Ha, Hl.
Qed.

Lemma update_buffers_short_input_witness :
  let c' := snd (update (JS.VBuffer abc) (init ctx0)) in
  s c' = s (init ctx0)
  /\ pending c' = pending (init ctx0) ++ abc
  /\ bytes c' = bytes (init ctx0) + Z.of_nat (length abc).
Proof.
  apply (update_buffers_short_input (init ctx0) abc).
  - apply init_ctx0_inv.
  - apply Nat.ltb_lt. vm_compute. reflexivity.
  - cbn. lia.
Defined.

(** X14.  When [digest] is given a value that is not a Buffer it throws
    an AssertionError, but only after it has re-initialised the shared
    context: the state words are the initial constants and the byte
    counter is 0, while the pending block, the schedule and [DESC] are as
    they were. *)
Theorem digest_failure_resets_context mem data m :
  wf_module m -> Buffer.isBuffer data = false ->
  exists c',
    digest mem data m
    = (JS.Throw JS.AssertionError, {| DESC := DESC m; ctx := c' |})
    /\ s c' = IV /\ bytes c' = 0
    /\ w c' = w (ctx m) /\ block c' = block (ctx m).
Proof.
  intros [Hwf _] Hdata. exists (init (ctx m)).
  destruct (init_inv (ctx m) Hwf) as (_ & Hs & Hn & _).
  split; [by destruct data|]. by rewrite Hs, Hn.
Qed.

Lemma digest_failure_resets_context_witness :
  exists c',
    digest mem0 (JS.VUint8Array abc) module0
    = (JS.Throw JS.AssertionError, {| DESC := DESC module0; ctx := c' |})
    /\ s c' = IV /\ bytes c' = 0
    /\ w c' = w (ctx module0) /\ block c' = block (ctx module0).
Proof.
  exact (digest_failure_resets_context mem0 (JS.VUint8Array abc) module0
           module0_wf eq_refl).
Defined.

(** X15.  The instance interface and the static helper agree: a context
    obtained from [SHA1.hash()], initialised, fed a message and
    finalised returns the digest that [SHA1.digest] returns for that
    message, whatever state the module and the new memory are in. *)
Theorem hash_instance_agrees_with_digest s0 w0 cmem mem mem' desc m msg :
  wf_module m -> length desc = 8%nat ->
  Z.of_nat (length msg) + 72 <= 2 ^ 53 ->
  fst (digest mem' (JS.VBuffer msg) m)
  = JS.Normal
      (fst (fst (final mem
                   (snd (update (JS.VBuffer msg) (init (hash s0 w0 cmem))))
                   desc))).
Proof.
  intros Hm Hdesc Hmax.
  destruct (module_digest mem' m msg Hm Hmax) as (c1 & -> & _).
  destruct (final_update mem (hash s0 w0 cmem) desc msg) as (c2 & -> & _);
    [apply constructor_wf | done | done |].
  reflexivity.
Qed.

Lemma hash_instance_agrees_with_digest_witness :
  fst (digest mem0 (JS.VBuffer abc) module0)
  = JS.Normal
      (fst (fst (final mem0
                   (snd (update (JS.VBuffer abc)
                           (init (hash (fun _ => 3) (fun _ => 4) (fun _ => Byte.x01)))))
                   (replicate 8 Byte.x07)))).
Proof.
  apply (hash_instance_agrees_with_digest (fun _ => 3) (fun _ => 4)
           (fun _ => Byte.x01) mem0 mem0 (replicate 8 Byte.x07) module0 abc).
  - apply module0_wf.
  - reflexivity.
  - cbn. lia.
Defined.

(** ** The digest as a state *)

Lemma be_word_be32_0 v rest : Spec.be_word (be32 v ++ rest) 0 = v mod 2 ^ 32.
Proof. rewrite <- be32_value. reflexivity. Qed.

Lemma be_word_be32_S v rest i :
  Spec.be_word (be32 v ++ rest) (S i) = Spec.be_word rest i.
Proof.
  unfold Spec.be_word.
  rewrite !lookup_total_app_r by (rewrite length_be32; lia).
  rewrite length_be32.
  replace (4 * S i - 4)%nat with (4 * i)%nat by lia.
  replace (4 * S i + 1 - 4)%nat with (4 * i + 1)%nat by lia.
  replace (4 * S i + 2 - 4)%nat with (4 * i + 2)%nat by lia.
  replace (4 * S i + 3 - 4)%nat with (4 * i + 3)%nat by lia.
  reflexivity.
Qed.

Lemma digest_words_serialize h :
  length h = 5%nat -> Forall Spec.word h -> digest_words (serialize h) = h.
Proof.
  intros Hlen Hw.
  destruct (list_length_5 _ Hlen) as (h0 & h1 & h2 & h3 & h4 & ->).
  repeat match goal with
         | H : Forall _ (_ :: _) |- _ => apply Forall_cons in H as [? H]
         end.
  unfold Spec.word in *.
  unfold digest_words, serialize. cbn [map concat seq].
  rewrite !be_word_be32_S, !be_word_be32_0.
  by rewrite !Z.mod_small by lia.
Qed.

Lemma IV_words : length IV = 5%nat /\ Forall Spec.word IV.
Proof. split; [done|]. unfold IV, Spec.word. repeat constructor; lia. Qed.

(** X16.  The digest and the length of a message are all of the state:
    a context whose state words are loaded from the digest of [m] and
    whose byte counter is the padded length of [m] continues the
    computation, so that feeding it [x] and finalising gives the digest
    of [m], the padding of [m] and [x] put together (length extension). *)
Theorem length_extension mem c desc m x :
  wf c -> length desc = 8%nat ->
  s c = digest_words (sha1 m) ->
  bytes c = Z.of_nat (length (m ++ padding (Z.of_nat (length m)))) ->
  Z.of_nat (length m) + Z.of_nat (length x) + 144 <= 2 ^ 53 ->
  fst (fst (final mem (snd (update (JS.VBuffer x) c)) desc))
  = sha1 (m ++ padding (Z.of_nat (length m)) ++ x).
Proof.
  intros Hwf Hdesc Hs Hn Hmax.
  destruct IV_words as [HIV5 HIVw].
  destruct (padded_length (Z.of_nat (length m)) ltac:(lia)) as [Hmod Hlen].
  set (p := padding (Z.of_nat (length m))) in *.
  destruct (absorb_inv IV (m ++ p) HIV5 HIVw) as [Hh5 Hhw].
  unfold sha1 at 1 in Hs. fold p in Hs.
  rewrite digest_words_serialize in Hs by done.
  rewrite length_app in Hn.
  assert (inv c) as Hinv.
  { split; [done|]. rewrite Hs, Hn. split; [done | lia]. }
  destruct (update_final_sim mem c desc x Hinv Hdesc ltac:(lia))
    as (ws & blk & -> & _).
  cbn [fst]. unfold sha1. f_equal.
  assert (pending c = []) as ->.
  { unfold pending.
    replace (bytes c mod 64) with 0 by (rewrite Hn; lia).
    apply take_0. }
  assert (leftover (m ++ p) = []) as Hl.
  { apply nil_length_inv. rewrite leftover_length, length_app. elia. }
  destruct (absorb_app IV (m ++ p)
              (x ++ padding (Z.of_nat (length (m ++ p ++ x))))) as [Ha _].
  rewrite Hl in Ha. cbn [app] in Ha.
  rewrite <- app_assoc in Ha. rewrite <- !app_assoc.
  rewrite <- Ha, Hs, Hn. cbn [app].
  do 3 f_equal. rewrite !length_app. lia.
Qed.

Lemma length_extension_witness :
  fst (fst (final mem0
              (snd (update (JS.VBuffer abc)
                      {| s := digest_words (sha1 []);
                         w := w ctx0; block := block ctx0; bytes := 64 |}))
              (replicate 8 Byte.x00)))
  = sha1 ([] ++ padding (Z.of_nat (length (@nil byte))) ++ abc).
Proof.
  apply (length_extension mem0
           {| s := digest_words (sha1 []);
              w := w ctx0; block := block ctx0; bytes := 64 |}
           (replicate 8 Byte.x00) [] abc).
  - repeat split.
  - reflexivity.
  - reflexivity.
  - reflexivity.
  - cbn. lia.
Defined.

(** ** [lib/random.js] *)


